(** * easyemit: the [EventEmitter] class of [src/mod.ts]

    A shallow embedding of the event emitter and the properties of its
    operations.  The emitter keeps two JavaScript objects,
    [onListeners] and [onceListeners], whose properties are arrays of
    listener functions.  Arrays are mutable heap objects: [emit] walks
    an array with [forEach] while [off] splices that same array, so the
    embedding keeps an explicit store of arrays and the two objects
    hold references into it.  The two objects are object literals:
    a name they have no property for is looked up on
    [Object.prototype], which the host provides. *)

From Stdlib Require Import ZArith String Ascii DecimalString.
From stdpp Require Import base option list strings.

Local Open Scope Z_scope.
Local Open Scope nat_scope.

(** ** JavaScript values the class relies on *)

(** Property names.  Event identifiers reach the two objects as
    property keys; [Object.keys] lists the string-named ones. *)
Abbreviation key := string.

(** References to array objects in the store. *)
Abbreviation loc := nat.

(** The value of an own property of [onListeners] / [onceListeners]:
    [undefined] ([None]) or a reference to an array. *)
Abbreviation slot := (option loc).

(** A JavaScript object: its own properties in the order in which
    [Object.keys] enumerates them. *)
Abbreviation obj := (list (key * slot)).

(** What [Object.prototype] can hold for a name: a method, a function
    object with its [length], in a writable data property; or the
    accessor [__proto__] of the hosts that have one, whose getter
    gives the prototype object and whose setter ignores
    [undefined]. *)
Inductive inherited : Type :=
| Method (length : nat)
| ProtoAccessor.

Global Instance inherited_eq_dec : EqDecision inherited.
Proof. solve_decision. Defined.

(** The host: what [Object.prototype] holds for each name. *)
Class Host := object_prototype : key → option inherited.

Module Js.

(** *** Array-index property names

    [Object.keys] lists the property names that are array indices
    first, in ascending numeric order, and the remaining strings in
    the order in which the properties were created. *)

Definition digit_of (c : ascii) : option N :=
  let n := N_of_ascii c in
  if ((48 <=? n) && (n <=? 57))%N then Some (n - 48)%N else None.

Fixpoint digits_value (s : string) (acc : N) : option N :=
  match s with
  | EmptyString => Some acc
  | String c s' =>
      match digit_of c with
      | Some d => digits_value s' (10 * acc + d)%N
      | None => None
      end
  end.

(** The canonical numeric strings below [2^32 - 1]. *)
Definition array_index (s : string) : option N :=
  match s with
  | EmptyString => None
  | String c s' =>
      if (N_of_ascii c =? 48)%N then
        match s' with EmptyString => Some 0%N | _ => None end
      else
        match digits_value s 0 with
        | Some n => if (n <? 4294967295)%N then Some n else None
        | None => None
        end
  end.

(** *** Objects *)

(** What a property lookup [o[k]] gives: [undefined], an array, or
    what the prototype holds. *)
Inductive property : Type :=
| Undefined
| Array (a : loc)
| Inherited (i : inherited).

Global Instance property_eq_dec : EqDecision property.
Proof. solve_decision. Defined.

(** The value of the own property [k] of [o]; [undefined] also when
    there is none. *)
Fixpoint own (o : obj) (k : key) : slot :=
  match o with
  | [] => None
  | (k', v) :: o' => if decide (k' = k) then v else own o' k
  end.

(** [Object.hasOwn(o, k)] *)
Fixpoint has (o : obj) (k : key) : bool :=
  match o with
  | [] => false
  | (k', _) :: o' => if decide (k' = k) then true else has o' k
  end.

(** [o[k]]: the own property when there is one, also when its value
    is [undefined]; otherwise what the prototype holds. *)
Definition get `{Host} (o : obj) (k : key) : property :=
  if has o k then
    match own o k with
    | Some a => Array a
    | None => Undefined
    end
  else
    match object_prototype k with
    | Some i => Inherited i
    | None => Undefined
    end.

Fixpoint replace (o : obj) (k : key) (v : slot) : obj :=
  match o with
  | [] => []
  | (k', v') :: o' =>
      if decide (k' = k) then (k, v) :: o' else (k', v') :: replace o' k v
  end.

(** A new array-index property goes before the first property that is
    not an array index or has a larger index. *)
Fixpoint insert_index (o : obj) (n : N) (k : key) (v : slot) : obj :=
  match o with
  | [] => [(k, v)]
  | (k', v') :: o' =>
      match array_index k' with
      | Some n' =>
          if (n <? n')%N then (k, v) :: (k', v') :: o'
          else (k', v') :: insert_index o' n k v
      | None => (k, v) :: (k', v') :: o'
      end
  end.

Definition create (o : obj) (k : key) (v : slot) : obj :=
  match array_index k with
  | Some n => insert_index o n k v
  | None => o ++ [(k, v)]
  end.

(** [o[k] = v]: an existing own property keeps its place.  Without
    one, the assignment goes to the setter when the prototype has an
    accessor for [k], and makes no property: the class assigns
    [undefined] there, which the setter of [__proto__] ignores.  (The
    class assigns an array only after a lookup that gave [undefined],
    which the getter never does: such an assignment does not come
    here.)  Otherwise the property is created. *)
Definition set `{Host} (o : obj) (k : key) (v : slot) : obj :=
  if has o k then replace o k v
  else
    match object_prototype k with
    | Some ProtoAccessor => o
    | _ => create o k v
    end.

(** [Object.keys(o)] *)
Definition keys (o : obj) : list key := o.*1.

(** ToBoolean of a looked-up value: arrays, also empty ones, and the
    functions and objects of the prototype are truthy, [undefined] is
    falsy. *)
Definition truthy (v : property) : bool :=
  match v with Undefined => false | _ => true end.

(** ToBoolean of an array object, such as a rest parameter. *)
Definition array_truthy {A : Type} (a : list A) : bool := true.

(** [n > max] for [n] a length or [undefined]: a comparison with
    [undefined] is false. *)
Definition greater (n : option nat) (max : Z) : bool :=
  match n with
  | Some n => (Z.of_nat n >? max)%Z
  | None => false
  end.

(** *** Arrays *)

Section Arrays.
Context {A : Type} `{EqDecision A}.

(** [a.indexOf(x)] with strict equality: the first index, or -1. *)
Fixpoint indexOf (a : list A) (x : A) : Z :=
  match a with
  | [] => (-1)%Z
  | y :: a' =>
      if decide (y = x) then 0%Z
      else let i := indexOf a' x in
           if (i =? -1)%Z then (-1)%Z else (i + 1)%Z
  end.

(** [a.splice(start, 1)]: a negative [start] counts from the end. *)
Definition splice1 (a : list A) (start : Z) : list A :=
  let len := Z.of_nat (length a) in
  let from := if (start <? 0)%Z then Z.max (len + start) 0 else Z.min start len in
  delete (Z.to_nat from) a.

(** [a.filter((v, i, arr) => f v i arr)] *)
Fixpoint filter_from (f : A → nat → list A → bool) (arr : list A)
    (i : nat) (a : list A) : list A :=
  match a with
  | [] => []
  | v :: a' =>
      if f v i arr then v :: filter_from f arr (S i) a'
      else filter_from f arr (S i) a'
  end.

Definition filter_i (f : A → nat → list A → bool) (a : list A) : list A :=
  filter_from f a 0 a.
End Arrays.

(** The text a template literal puts for [v?.length]: the decimal
    digits of a length, or the word for [undefined]. *)
Definition template (n : option nat) : string :=
  match n with
  | Some n => NilZero.string_of_uint (Nat.to_uint n)
  | None => "undefined"
  end.

End Js.

(** The prototype of Node and of the browsers: the methods of
    [Object.prototype] with their lengths, and the accessor
    [__proto__]. *)
Definition node_prototype (k : key) : option inherited :=
  if decide (k = "constructor") then Some (Method 1)
  else if decide (k = "hasOwnProperty") then Some (Method 1)
  else if decide (k = "isPrototypeOf") then Some (Method 1)
  else if decide (k = "propertyIsEnumerable") then Some (Method 1)
  else if decide (k = "toLocaleString") then Some (Method 0)
  else if decide (k = "toString") then Some (Method 0)
  else if decide (k = "valueOf") then Some (Method 0)
  else if decide (k = "__defineGetter__") then Some (Method 2)
  else if decide (k = "__defineSetter__") then Some (Method 2)
  else if decide (k = "__lookupGetter__") then Some (Method 1)
  else if decide (k = "__lookupSetter__") then Some (Method 1)
  else if decide (k = "__proto__") then Some ProtoAccessor
  else None.

(** Deno takes the accessor [__proto__] away. *)
Definition deno_prototype (k : key) : option inherited :=
  if decide (k = "__proto__") then None else node_prototype k.

(** ** The store, the emitter and the monad of its methods *)

Section Emitter.

(** Listeners are function objects compared by identity; [value] is
    the type of JavaScript values: the arguments handed to a listener
    and whatever it may throw. *)
Context {listener : Type} `{EqDecision listener}.
Context {value : Type}.
Context `{Host}.

Inductive thrown : Type :=
| ErrorObj (message : string)      (* [new Error(message)] *)
| TypeError                        (* a property of [undefined], a call of what is no function *)
| ListenerThrew (x : value).

Inductive outcome (A : Type) : Type :=
| Ret (a : A)
| Throw (t : thrown).
Global Arguments Ret {A} a.
Global Arguments Throw {A} t.

(** The private fields of an [EventEmitter] instance.  The threshold
    is a number that the class only compares with lengths; it is kept
    as an integer. *)
Record EventEmitter : Type := mkEmitter {
  onListeners : obj;
  onceListeners : obj;
  maxListeners : Z
}.

(** What a method can see and change: the array store, the instance
    it is called on, and the record of the listener calls made so
    far, oldest first. *)
Record World : Type := mkWorld {
  heap : list (list listener);
  this : EventEmitter;
  calls : list (listener * list value)
}.

Definition M (A : Type) : Type := World → outcome A * World.

Global Instance M_ret : MRet M := λ A a w, (Ret a, w).

Global Instance M_bind : MBind M := λ A B f m w,
  match m w with
  | (Ret a, w') => f a w'
  | (Throw t, w') => (Throw t, w')
  end.

Definition throw {A : Type} (t : thrown) : M A := λ w, (Throw t, w).

Definition gets {A : Type} (f : World → A) : M A := λ w, (Ret (f w), w).

Definition modify (f : World → World) : M unit := λ w, (Ret tt, f w).

Definition with_heap (f : list (list listener) → list (list listener))
    (w : World) : World :=
  mkWorld (f (heap w)) (this w) (calls w).

Definition with_this (f : EventEmitter → EventEmitter) (w : World) : World :=
  mkWorld (heap w) (f (this w)) (calls w).

Definition with_calls
    (f : list (listener * list value) → list (listener * list value))
    (w : World) : World :=
  mkWorld (heap w) (this w) (f (calls w)).

(** *** The two listener objects *)

Inductive field : Type := OnListeners | OnceListeners.

Global Instance field_eq_dec : EqDecision field.
Proof. solve_decision. Defined.

Definition field_of (fld : field) (em : EventEmitter) : obj :=
  match fld with
  | OnListeners => onListeners em
  | OnceListeners => onceListeners em
  end.

Definition field_put (fld : field) (o : obj) (em : EventEmitter) : EventEmitter :=
  match fld with
  | OnListeners => mkEmitter o (onceListeners em) (maxListeners em)
  | OnceListeners => mkEmitter (onListeners em) o (maxListeners em)
  end.

(** [this.fld[event]] *)
Definition read (fld : field) (event : key) : M Js.property :=
  gets (λ w, Js.get (field_of fld (this w)) event).

(** [this.fld[event] = v] *)
Definition write (fld : field) (event : key) (v : slot) : M unit :=
  modify (with_this (λ em, field_put fld (Js.set (field_of fld em) event v) em)).

(** [this.fld = {}] *)
Definition reset (fld : field) : M unit :=
  modify (with_this (field_put fld [])).

(** *** Arrays in the store *)

(** The elements of the array at [a]. *)
Definition elements (w : World) (a : loc) : list listener :=
  default [] (heap w !! a).

(** The array literal [[]]: a new array object. *)
Definition new_array : M loc :=
  λ w, (Ret (length (heap w)), with_heap (λ h, h ++ [[]]) w).

Definition update_array (a : loc) (f : list listener → list listener) : M unit :=
  modify (with_heap (alter f a)).

(** The elements after [push(x)] and after [unshift(x)]. *)
Definition at_end (x : listener) (l : list listener) : list listener := l ++ [x].
Definition at_front (x : listener) (l : list listener) : list listener := x :: l.

(** A method call [v?.m(...)] on a looked-up value, for a method [m]
    of arrays: nothing happens on [undefined]; the functions and
    objects of the prototype have no such method, and calling what
    is not there is a [TypeError]. *)
Definition array_method (v : Js.property) (f : list listener → list listener)
    : M unit :=
  match v with
  | Js.Array a => update_array a f
  | Js.Undefined => mret tt
  | Js.Inherited _ => throw TypeError
  end.

(** [v?.push(x)] *)
Definition push (v : Js.property) (x : listener) : M unit :=
  array_method v (at_end x).

(** [v?.unshift(x)] *)
Definition unshift (v : Js.property) (x : listener) : M unit :=
  array_method v (at_front x).

(** [v?.splice(index, 1)] *)
Definition splice (v : Js.property) (index : Z) : M unit :=
  array_method v (λ l, Js.splice1 l index).

(** The [length] of what is not [undefined]: of an array, of a
    function; the prototype object has none. *)
Definition length_value (w : World) (v : Js.property) : option nat :=
  match v with
  | Js.Array a => Some (length (elements w a))
  | Js.Undefined => None
  | Js.Inherited (Method n) => Some n
  | Js.Inherited ProtoAccessor => None
  end.

(** [v?.length]: [undefined] when [v] is. *)
Definition length_opt (v : Js.property) : M (option nat) :=
  gets (λ w, length_value w v).

(** [v!.length]: reading [length] of [undefined] is a [TypeError]. *)
Definition length_of (v : Js.property) : M (option nat) :=
  match v with
  | Js.Undefined => throw TypeError
  | _ => gets (λ w, length_value w v)
  end.

(** [v!.indexOf(x)] *)
Definition index_of (v : Js.property) (x : listener) : M Z :=
  match v with
  | Js.Array a => gets (λ w, Js.indexOf (elements w a) x)
  | _ => throw TypeError
  end.

(** [a.forEach(cb)]: the length is read once, before the first
    call; each index below it that is still in the array when its
    turn comes is visited, with the element found there then. *)
Fixpoint forEach_from (a : loc) (cb : listener → M unit) (k n : nat) : M unit :=
  match n with
  | 0 => mret tt
  | S n' =>
      λ w, match elements w a !! k with
           | Some x => (cb x ;; forEach_from a cb (S k) n') w
           | None => forEach_from a cb (S k) n' w
           end
  end.

(** [v?.forEach(cb)] *)
Definition forEach (v : Js.property) (cb : listener → M unit) : M unit :=
  match v with
  | Js.Array a => λ w, forEach_from a cb 0 (length (elements w a)) w
  | Js.Undefined => mret tt
  | Js.Inherited _ => throw TypeError
  end.

(** *** Listener calls *)

(** What running a listener does.  A listener is arbitrary code: it
    may throw and it may call back into the emitter. *)
Variable body : listener → list value → M unit.

(** [listener(...args)]; the call is recorded, its result is dropped. *)
Definition call (f : listener) (args : list value) : M unit :=
  modify (with_calls (λ c, c ++ [(f, args)])) ;; body f args.

(** [return this] *)
Definition return_this : M EventEmitter := gets this.

(** ** The class *)

(** [static defaultMaxListeners = 10]: the value of the static as the
    class declares it. *)
Definition defaultMaxListeners : Z := 10.

(** [new EventEmitter()] while the static holds [d]: both objects are
    [{}] and the threshold is [d]. *)
Definition new_EventEmitter_at (d : Z) : EventEmitter := mkEmitter [] [] d.

(** [new EventEmitter()] while the static holds its declared value. *)
Definition new_EventEmitter : EventEmitter :=
  mkEmitter [] [] defaultMaxListeners.

(** The text of the error of the four adding methods, for the value
    [n] that the template reads with [?.length]. *)
Definition leak_message (n : option nat) : string :=
  String.append "Possible EventEmitter memory leak detected. "
    (String.append (Js.template n)
       " test listeners added to [EventEmitter]. Use emitter.setMaxListeners() to increase limit").

(** [this.fld[event]!.length > this.maxListeners], then the [throw]
    with the length read again through [?.], or [return this]. *)
Definition check_limit (fld : field) (event : key) : M EventEmitter :=
  v ← read fld event;
  n ← length_of v;
  max ← gets (λ w, maxListeners (this w));
  if Js.greater n max then
    v' ← read fld event;
    n' ← length_opt v';
    throw (ErrorObj (leak_message n'))
  else return_this.

(** [once(event, listener)] *)
Definition once (event : key) (l : listener) : M EventEmitter :=
  v ← read OnceListeners event;
  (if negb (Js.truthy v) then a ← new_array; write OnceListeners event (Some a)
   else mret tt) ;;
  v ← read OnceListeners event;
  push v l ;;
  check_limit OnceListeners event.

(** [on(event, listener)] *)
Definition on (event : key) (l : listener) : M EventEmitter :=
  v ← read OnListeners event;
  (if negb (Js.truthy v) then a ← new_array; write OnListeners event (Some a)
   else mret tt) ;;
  v ← read OnListeners event;
  push v l ;;
  check_limit OnListeners event.

(** The second block of [off]: the search in [onListeners]. *)
Definition off_persistent (event : key) (l : listener) : M EventEmitter :=
  v ← read OnListeners event;
  if Js.truthy v then
    index ← index_of v l;
    if (index =? -1)%Z then return_this
    else
      v' ← read OnListeners event;
      splice v' index ;;
      return_this
  else return_this.

(** [off(event, listener)]: the first block returns when the listener
    is not in the one-shot array, and otherwise splices and goes on
    to the second block. *)
Definition off (event : key) (l : listener) : M EventEmitter :=
  v ← read OnceListeners event;
  if Js.truthy v then
    index ← index_of v l;
    if (index =? -1)%Z then return_this
    else
      v' ← read OnceListeners event;
      splice v' index ;;
      off_persistent event l
  else off_persistent event l.

(** [prependListener(event, listener)] *)
Definition prependListener (event : key) (l : listener) : M EventEmitter :=
  v ← read OnListeners event;
  (if negb (Js.truthy v) then a ← new_array; write OnListeners event (Some a)
   else mret tt) ;;
  v ← read OnListeners event;
  unshift v l ;;
  check_limit OnListeners event.

(** [prependOnceListener(event, listener)] *)
Definition prependOnceListener (event : key) (l : listener) : M EventEmitter :=
  v ← read OnceListeners event;
  (if negb (Js.truthy v) then a ← new_array; write OnceListeners event (Some a)
   else mret tt) ;;
  v ← read OnceListeners event;
  unshift v l ;;
  check_limit OnceListeners event.

(** [addListener = this.on] and [removeListener = this.off] *)
Definition addListener := on.
Definition removeListener := off.

(** [!this.fld[event] || this.fld[event]?.length === 0] *)
Definition none_registered (fld : field) (event : key) : M bool :=
  v ← read fld event;
  n ← length_opt v;
  mret (negb (Js.truthy v) || bool_decide (n = Some 0)).

(** The callback of the second loop of [emit]:
    [listener => { listener(...args); this.off(event, listener) }] *)
Definition call_once (event : key) (args : list value) (l : listener) : M unit :=
  call l args ;; off event l ;; mret tt.

(** [emit(event, ...args)] *)
Definition emit (event : key) (args : list value) : M bool :=
  stop ← none_registered OnListeners event;
  if (stop : bool) then mret false
  else
    v ← read OnListeners event;
    forEach v (λ l, call l args) ;;
    stop ← none_registered OnceListeners event;
    if (stop : bool) then mret true
    else
      v ← read OnceListeners event;
      forEach v (call_once event args) ;;
      mret true.

(** [eventNames()] *)
Definition defined_keys (o : obj) : list key :=
  filter (λ k, Js.get o k ≠ Js.Undefined) (Js.keys o).

Definition eventNames : M (list key) :=
  gets (λ w,
    Js.filter_i (λ v i a, bool_decide (Js.indexOf a v = Z.of_nat i))
      (defined_keys (onListeners (this w))
         ++ defined_keys (onceListeners (this w)))).

(** [listenerCount(event)] *)
Definition listenerCount (event : key) : M nat :=
  v1 ← read OnListeners event;
  n1 ← length_opt v1;
  v2 ← read OnceListeners event;
  n2 ← length_opt v2;
  mret (default 0 n1 + default 0 n2).

(** An element of the array that [listeners] returns: a listener, or
    a value of the prototype that [concat] was given. *)
Inductive item : Type :=
| Listener (f : listener)
| FromPrototype (i : inherited).

(** [v ?? []], for [v] an array or [undefined], by its elements. *)
Definition elements_or_empty (w : World) (v : Js.property) : list listener :=
  match v with
  | Js.Array a => elements w a
  | _ => []
  end.

(** [listeners(event)]: a new array, given by its elements.  The first
    operand of [??] must give an array for [concat] to be there;
    [concat] spreads an array argument and appends any other value
    as one element. *)
Definition listeners (event : key) : M (list item) :=
  v1 ← read OnListeners event;
  v2 ← read OnceListeners event;
  match v1 with
  | Js.Inherited _ => throw TypeError
  | _ =>
      l1 ← gets (λ w, elements_or_empty w v1);
      match v2 with
      | Js.Inherited i => mret ((Listener <$> l1) ++ [FromPrototype i])
      | _ =>
          l2 ← gets (λ w, elements_or_empty w v2);
          mret (Listener <$> (l1 ++ l2))
      end
  end.

(** [removeAllListeners(...events)]: [events] is the rest parameter,
    an array, and the test [!events] is made on that array. *)
Definition removeAllListeners (events : list key) : M EventEmitter :=
  (if negb (Js.array_truthy events) then
     reset OnListeners ;; reset OnceListeners
   else
     foldr (λ event rest,
              write OnListeners event None ;;
              write OnceListeners event None ;;
              rest)
           (mret tt) events) ;;
  return_this.

(** [setMaxListeners(n)] *)
Definition setMaxListeners (n : Z) : M EventEmitter :=
  modify (with_this (λ em, mkEmitter (onListeners em) (onceListeners em) n)) ;;
  return_this.

(** [getMaxListeners()] *)
Definition getMaxListeners : M Z :=
  gets (λ w, maxListeners (this w)).

(** ** Notions the properties are stated with *)

(** The outcome of a method call and the world it leaves, whether
    the call returned or threw. *)
Definition result {A : Type} (m : M A) (w : World) : outcome A := (m w).1.
Definition after {A : Type} (m : M A) (w : World) : World := (m w).2.

(** The listeners that a field holds for [event]: the elements of the
    array stored there, none when the property is [undefined]. *)
Definition listeners_in (fld : field) (event : key) (w : World) : list listener :=
  match Js.own (field_of fld (this w)) event with
  | Some a => elements w a
  | None => []
  end.

(** An event name that the prototype has nothing for: every lookup of
    it finds an own property or [undefined]. *)
Definition plain (event : key) : Prop := object_prototype event = None.

(** The [length] that [listenerCount] adds for a value of the
    prototype. *)
Definition inherited_length (i : inherited) : nat :=
  match i with
  | Method n => n
  | ProtoAccessor => 0
  end.

(** A lookup of [event] in a field that does not reach the prototype:
    the object has the property, or the prototype has nothing for the
    name. *)
Definition direct (fld : field) (event : key) (w : World) : Prop :=
  Js.has (field_of fld (this w)) event = true ∨ plain event.

(** The calls that invoking each listener of [l] in turn with [args]
    adds to the record. *)
Definition invoked (args : list value) (l : list listener)
    : list (listener * list value) :=
  (λ f, (f, args)) <$> l.

(** A listener that returns normally and leaves the emitter alone. *)
Definition quiet (f : listener) : Prop :=
  ∀ args w, body f args w = (Ret tt, w).

(** The body of listeners that do nothing. *)
Definition quiet_body : listener → list value → M unit := λ _ _, mret tt.

(** The array references an object holds. *)
Definition refs (o : obj) : list loc := omap snd o.

(** The store of a world that the class built: every property of the
    two objects has an array of its own, and that array is in the
    store; and a name of the prototype is an own property of both
    objects or of none, since only [removeAllListeners] makes it
    one. *)
Definition wf (w : World) : Prop :=
  NoDup (refs (onListeners (this w)) ++ refs (onceListeners (this w)))
  ∧ Forall (λ a, a < length (heap w))
      (refs (onListeners (this w)) ++ refs (onceListeners (this w)))
  ∧ ∀ k, object_prototype k ≠ None →
         Js.has (onListeners (this w)) k = Js.has (onceListeners (this w)) k.

(** [l] without the first occurrence of [x]. *)
Fixpoint remove_first (x : listener) (l : list listener) : list listener :=
  match l with
  | [] => []
  | y :: l' => if decide (y = x) then l' else y :: remove_first x l'
  end.

(** The elements of a list at the even indices (0, 2, ...) and at
    the odd ones. *)
Fixpoint evens (l : list listener) : list listener :=
  match l with
  | [] => []
  | x :: l' => x :: match l' with [] => [] | _ :: l'' => evens l'' end
  end.

Definition odds (l : list listener) : list listener :=
  match l with
  | [] => []
  | _ :: l' => evens l'
  end.

(** The common shape of [on], [once], [prependListener] and
    [prependOnceListener]: they differ in the field and in the array
    method that puts the listener in. *)
Definition add_with (fld : field) (put : Js.property → listener → M unit)
    (event : key) (l : listener) : M EventEmitter :=
  v ← read fld event;
  (if negb (Js.truthy v) then a ← new_array; write fld event (Some a)
   else mret tt) ;;
  v ← read fld event;
  put v l ;;
  check_limit fld event.

(** A world with a new emitter and no array yet. *)
Definition fresh_world : World := mkWorld [] new_EventEmitter [].

(** The same, for an emitter made while the static holds [d]. *)
Definition fresh_world_at (d : Z) : World := mkWorld [] (new_EventEmitter_at d) [].

(** The four adding methods, with the field each of them fills and
    the place where it puts the listener. *)
Inductive adder : Type := AddOn | AddOnce | AddPrepend | AddPrependOnce.

Definition adder_method (m : adder) : key → listener → M EventEmitter :=
  match m with
  | AddOn => on
  | AddOnce => once
  | AddPrepend => prependListener
  | AddPrependOnce => prependOnceListener
  end.

Definition adder_field (m : adder) : field :=
  match m with
  | AddOn | AddPrepend => OnListeners
  | AddOnce | AddPrependOnce => OnceListeners
  end.

Definition adder_place (m : adder) : listener → list listener → list listener :=
  match m with
  | AddOn | AddOnce => at_end
  | AddPrepend | AddPrependOnce => at_front
  end.

(** Two worlds in which [listeners(event)] and [listenerCount(event)]
    give the same. *)
Definition same_listeners (event : key) (w w' : World) : Prop :=
  result (listeners event) w' = result (listeners event) w
  ∧ result (listenerCount event) w' = result (listenerCount event) w.

(** The world after adding the listeners of [fs] one after the other
    with the same method, whether or not a call threw. *)
Definition add_all (m : adder) (event : key) (fs : list listener) (w : World)
    : World :=
  foldl (λ w' f, after (adder_method m event f) w') w fs.

End Emitter.

(** ** The event names of the specification *)

(** A list without the later occurrences of an element. *)
Fixpoint dedup_first (seen l : list key) : list key :=
  match l with
  | [] => []
  | k :: l' =>
      if decide (k ∈ seen) then dedup_first seen l'
      else k :: dedup_first (k :: seen) l'
  end.

(** The keys of an object whose own value is an array, not
    [undefined], in the order of the keys. *)
Definition kept_keys (o : obj) : list key :=
  filter (λ k, is_Some (Js.own o k)) (Js.keys o).

(** The kept keys of the persistent object, then those of the
    one-shot object, the whole without repetitions, first occurrences
    kept. *)
Definition names_of {listener value : Type} (w : @World listener value) : list key :=
  dedup_first []
    (kept_keys (onListeners (this w)) ++ kept_keys (onceListeners (this w))).

(** ** Scenarios

    Listeners named by strings, string arguments, and bodies that do
    nothing, on a host with the prototype of Node. *)
Global Instance node : Host := node_prototype.

Module Scenario.

Definition W : Type := @World string string.
Definition Run (A : Type) : Type := @M string string A.

Definition start : W := fresh_world.

Definition emit' (event : key) (args : list string) : Run bool :=
  emit quiet_body event args.

(** A new emitter after [setMaxListeners(0)]. *)
Definition strict : W := after (setMaxListeners 0 : Run _) start.

(** [on('e', 'h')], [once('e', 'f')], [once('e', 'g')] *)
Definition two_once : W :=
  after (once "e" "g" : Run _)
    (after (once "e" "f" : Run _) (after (on "e" "h" : Run _) start)).

(** [on('e', 'f')], [once('e', 'g')] *)
Definition on_f_once_g : W :=
  after (once "e" "g" : Run _) (after (on "e" "f" : Run _) start).

(** [on('e', 'f')], [once('e', 'f')] *)
Definition on_f_once_f : W :=
  after (once "e" "f" : Run _) (after (on "e" "f" : Run _) start).



(** [on('e', 'g')] *)
Definition on_g : W := after (on "e" "g" : Run _) start.

(** [on('a', 'f')] *)
Definition on_a : W := after (on "a" "f" : Run _) start.

(** [removeAllListeners('a')] first, then [on('b', 'g')], [on('a', 'f')] *)
Definition removed_first : W :=
  after (on "a" "f" : Run _)
    (after (on "b" "g" : Run _)
       (after (removeAllListeners ["a"] : Run _) start)).

(** [on('b', 'g')], [on('a', 'f')] *)
Definition b_then_a : W :=
  after (on "a" "f" : Run _) (after (on "b" "g" : Run _) start).

(** [on('a', 'f')], [on('a', 'g')], [once('a', 'h')] *)
Definition three_on_a : W :=
  after (once "a" "h" : Run _)
    (after (on "a" "g" : Run _) (after (on "a" "f" : Run _) start)).

(** Bodies of which only the listener ['bad'] throws, the value
    ['boom'], without touching the emitter. *)
Definition bad_body (f : string) (args : list string) : Run unit :=
  if decide (f = "bad") then throw (ListenerThrew "boom") else mret tt.

(** [on('e', 'g')], [on('e', 'bad')], [on('e', 'h')] *)
Definition bad_between : W :=
  after (on "e" "h" : Run _)
    (after (on "e" "bad" : Run _) (after (on "e" "g" : Run _) start)).

(** [on('e', 'g')], [once('e', 'bad')] *)
Definition bad_once : W :=
  after (once "e" "bad" : Run _) (after (on "e" "g" : Run _) start).

(** [on('e', 'f')], without a one-shot listener *)
Definition on_f : W := after (on "e" "f" : Run _) start.



(** [on('b', 'g')], [on('a', 'f')], [once('c', 'h')], then
    [removeAllListeners('a')] *)
Definition a_removed : W :=
  after (removeAllListeners ["a"] : Run _)
    (after (once "c" "h" : Run _)
       (after (on "a" "f" : Run _) (after (on "b" "g" : Run _) start))).


End Scenario.

(** ** Facts about objects and arrays *)

Section JsFacts.

Context `{Host}.

Lemma has_false_own (o : obj) (k : key) : Js.has o k = false → Js.own o k = None.
Proof.
  induction o as [|[k' v'] o IH]; simpl; [done|].
  destruct (decide (k' = k)); [done | exact IH].
Qed.

Lemma own_Some_has (o : obj) (k : key) (a : loc) :
  Js.own o k = Some a → Js.has o k = true.
Proof.
  intros Hown. destruct (Js.has o k) eqn:Hhas; [done|].
  by rewrite has_false_own in Hown.
Qed.

Lemma own_replace (o : obj) (k k' : key) (v : slot) :
  Js.has o k = true →
  Js.own (Js.replace o k v) k' = if decide (k = k') then v else Js.own o k'.
Proof.
  induction o as [|[k0 v0] o IH]; simpl; [done|].
  destruct (decide (k0 = k)) as [->|Hne]; simpl.
  - intros _. destruct (decide (k = k')); done.
  - intros Hhas. destruct (decide (k0 = k')) as [->|Hne'].
    + destruct (decide (k = k')); [congruence | done].
    + by apply IH.
Qed.

Lemma own_app_fresh (o : obj) (k k' : key) (v : slot) :
  Js.has o k = false →
  Js.own (o ++ [(k, v)]) k' = if decide (k = k') then v else Js.own o k'.
Proof.
  induction o as [|[k0 v0] o IH]; simpl.
  - intros _. destruct (decide (k = k')); done.
  - destruct (decide (k0 = k)) as [->|Hne]; [done|].
    intros Hhas. destruct (decide (k0 = k')) as [->|Hne'].
    + destruct (decide (k = k')); [congruence | done].
    + by apply IH.
Qed.

Lemma own_insert_index (o : obj) (n : N) (k k' : key) (v : slot) :
  Js.has o k = false →
  Js.own (Js.insert_index o n k v) k' = if decide (k = k') then v else Js.own o k'.
Proof.
  induction o as [|[k0 v0] o IH]; simpl.
  - intros _. destruct (decide (k = k')); done.
  - destruct (decide (k0 = k)) as [->|Hne]; [done|].
    intros Hhas.
    destruct (Js.array_index k0) as [n'|]; [destruct (n <? n')%N|]; simpl.
    + destruct (decide (k = k')); [done|]. done.
    + destruct (decide (k0 = k')) as [->|Hne'].
      * destruct (decide (k = k')); [congruence | done].
      * by apply IH.
    + destruct (decide (k = k')); done.
Qed.

Lemma own_create (o : obj) (k k' : key) (v : slot) :
  Js.has o k = false →
  Js.own (Js.create o k v) k' = if decide (k = k') then v else Js.own o k'.
Proof.
  intros Hhas. unfold Js.create. destruct (Js.array_index k).
  - by apply own_insert_index.
  - by apply own_app_fresh.
Qed.

Lemma has_replace (o : obj) (k k' : key) (v : slot) :
  Js.has (Js.replace o k v) k' = Js.has o k'.
Proof.
  induction o as [|[k0 v0] o IH]; simpl; [done|].
  destruct (decide (k0 = k)) as [->|Hne]; simpl; [done|].
  destruct (decide (k0 = k')); [done | exact IH].
Qed.

Lemma has_insert_index (o : obj) (n : N) (k k' : key) (v : slot) :
  Js.has (Js.insert_index o n k v) k' = bool_decide (k = k') || Js.has o k'.
Proof.
  induction o as [|[k0 v0] o IH]; simpl.
  - destruct (decide (k = k')) as [->|Hne].
    + by rewrite bool_decide_eq_true_2.
    + by rewrite bool_decide_eq_false_2.
  - destruct (Js.array_index k0) as [n'|]; [destruct (n <? n')%N|]; simpl.
    + destruct (decide (k = k')) as [->|Hne];
        [by rewrite bool_decide_eq_true_2 | by rewrite bool_decide_eq_false_2].
    + destruct (decide (k0 = k')); [by rewrite orb_true_r | exact IH].
    + destruct (decide (k = k')) as [->|Hne];
        [by rewrite bool_decide_eq_true_2 | by rewrite bool_decide_eq_false_2].
Qed.

Lemma has_app (o : obj) (k k' : key) (v : slot) :
  Js.has (o ++ [(k, v)]) k' = bool_decide (k = k') || Js.has o k'.
Proof.
  induction o as [|[k0 v0] o IH]; simpl.
  - destruct (decide (k = k')) as [->|Hne];
      [by rewrite bool_decide_eq_true_2 | by rewrite bool_decide_eq_false_2].
  - destruct (decide (k0 = k')); [by rewrite orb_true_r | exact IH].
Qed.

Lemma has_create (o : obj) (k k' : key) (v : slot) :
  Js.has (Js.create o k v) k' = bool_decide (k = k') || Js.has o k'.
Proof.
  unfold Js.create. destruct (Js.array_index k).
  - apply has_insert_index.
  - apply has_app.
Qed.

(** An assignment to [k] that reaches the object: there is an own
    property, or the prototype has no accessor for [k]. *)
Lemma own_set (o : obj) (k k' : key) (v : slot) :
  Js.has o k = true ∨ object_prototype k ≠ Some ProtoAccessor →
  Js.own (Js.set o k v) k' = if decide (k = k') then v else Js.own o k'.
Proof.
  intros Hcase. unfold Js.set. destruct (Js.has o k) eqn:Hhas.
  - by apply own_replace.
  - destruct Hcase as [|Hacc]; [done|].
    destruct (object_prototype k) as [[n|]|]; try done; by apply own_create.
Qed.

Lemma own_set_eq (o : obj) (k : key) (v : slot) :
  Js.has o k = true ∨ object_prototype k ≠ Some ProtoAccessor →
  Js.own (Js.set o k v) k = v.
Proof. intros Hcase. rewrite own_set by done. by destruct (decide (k = k)). Qed.

Lemma own_set_ne (o : obj) (k k' : key) (v : slot) :
  k ≠ k' → Js.own (Js.set o k v) k' = Js.own o k'.
Proof.
  intros Hne. unfold Js.set. destruct (Js.has o k) eqn:Hhas.
  - rewrite own_replace by done. by destruct (decide (k = k')).
  - destruct (object_prototype k) as [[n|]|]; try done;
      rewrite own_create by done; by destruct (decide (k = k')).
Qed.

(** Whatever the assignment does, an [undefined] leaves [undefined]. *)
Lemma own_set_None (o : obj) (k k' : key) :
  Js.own (Js.set o k None) k' = if decide (k = k') then None else Js.own o k'.
Proof.
  destruct (decide (k = k')) as [<-|Hne]; [|by apply own_set_ne].
  unfold Js.set. destruct (Js.has o k) eqn:Hhas.
  - rewrite own_replace by done. by destruct (decide (k = k)).
  - destruct (object_prototype k) as [[n|]|];
      try (rewrite own_create by done; by destruct (decide (k = k)));
      by apply has_false_own.
Qed.

Lemma has_set_ne (o : obj) (k k' : key) (v : slot) :
  k ≠ k' → Js.has (Js.set o k v) k' = Js.has o k'.
Proof.
  intros Hne. unfold Js.set. destruct (Js.has o k) eqn:Hhas.
  - apply has_replace.
  - destruct (object_prototype k) as [[n|]|]; try done;
      rewrite has_create; by rewrite bool_decide_eq_false_2.
Qed.

Lemma has_set_eq (o : obj) (k : key) (v : slot) :
  Js.has (Js.set o k v) k
  = Js.has o k || bool_decide (object_prototype k ≠ Some ProtoAccessor).
Proof.
  unfold Js.set. destruct (Js.has o k) eqn:Hhas.
  - by rewrite has_replace, Hhas.
  - destruct (object_prototype k) as [[n|]|]; simpl;
      rewrite ?has_create, ?Hhas, ?bool_decide_eq_true_2; done.
Qed.

(** A lookup that does not reach the prototype. *)
Lemma get_own (o : obj) (k : key) :
  Js.has o k = true ∨ object_prototype k = None →
  Js.get o k = match Js.own o k with
               | Some a => Js.Array a
               | None => Js.Undefined
               end.
Proof.
  intros Hcase. unfold Js.get. destruct (Js.has o k) eqn:Hhas; [done|].
  destruct Hcase as [|Hp]; [done|]. by rewrite Hp, has_false_own.
Qed.

(** A lookup that does. *)
Lemma get_inherited (o : obj) (k : key) (i : inherited) :
  Js.has o k = false → object_prototype k = Some i →
  Js.get o k = Js.Inherited i.
Proof. intros Hhas Hi. unfold Js.get. by rewrite Hhas, Hi. Qed.

Lemma get_cases (o : obj) (k : key) :
  (Js.get o k = match Js.own o k with
                | Some a => Js.Array a
                | None => Js.Undefined
                end
   ∧ (Js.has o k = true ∨ object_prototype k = None))
  ∨ (∃ i, Js.get o k = Js.Inherited i ∧ Js.has o k = false
          ∧ object_prototype k = Some i).
Proof.
  destruct (Js.has o k) eqn:Hhas.
  - left. split; [apply get_own|]; by left.
  - destruct (object_prototype k) as [i|] eqn:Hi.
    + right. exists i. split; [by apply get_inherited|done].
    + left. split; [apply get_own|]; by right.
Qed.

(** The class assigns an array only after a lookup that gave
    [undefined]: such an assignment never goes to a setter of the
    prototype. *)
Lemma get_Undefined_set (o : obj) (k : key) :
  Js.get o k = Js.Undefined →
  Js.has o k = true ∨ object_prototype k ≠ Some ProtoAccessor.
Proof.
  unfold Js.get. destruct (Js.has o k); [by left|].
  destruct (object_prototype k); [done|]. by right.
Qed.

Lemma get_set_ne (o : obj) (k k' : key) (v : slot) :
  k ≠ k' → Js.get (Js.set o k v) k' = Js.get o k'.
Proof.
  intros Hne. unfold Js.get. by rewrite has_set_ne, own_set_ne.
Qed.

Lemma own_Some_refs (o : obj) (k : key) (a : loc) :
  Js.own o k = Some a → a ∈ refs o.
Proof.
  unfold refs. induction o as [|[k0 v0] o IH]; simpl; [done|].
  destruct (decide (k0 = k)) as [->|Hne].
  - intros ->. simpl. apply list_elem_of_here.
  - intros Hget. destruct v0; simpl; [apply list_elem_of_further|]; by apply IH.
Qed.

Lemma refs_replace (o : obj) (k : key) (a : loc) :
  Js.has o k = true → Js.own o k = None →
  refs (Js.replace o k (Some a)) ≡ₚ a :: refs o.
Proof.
  unfold refs. induction o as [|[k0 v0] o IH]; simpl; [done|].
  destruct (decide (k0 = k)) as [->|Hne]; simpl.
  - intros _ ->. done.
  - intros Hhas Hget. destruct v0; simpl.
    + rewrite IH by done. apply Permutation_swap.
    + by apply IH.
Qed.

Lemma refs_insert_index (o : obj) (n : N) (k : key) (a : loc) :
  refs (Js.insert_index o n k (Some a)) ≡ₚ a :: refs o.
Proof.
  unfold refs. induction o as [|[k0 v0] o IH]; simpl; [done|].
  destruct (Js.array_index k0) as [n'|]; [destruct (n <? n')%N|]; simpl; try done.
  destruct v0; simpl.
  - rewrite IH. apply Permutation_swap.
  - exact IH.
Qed.

(** The references of an object after a property that was
    [undefined] received an array. *)
Lemma refs_set (o : obj) (k : key) (a : loc) :
  Js.own o k = None →
  Js.has o k = true ∨ object_prototype k ≠ Some ProtoAccessor →
  refs (Js.set o k (Some a)) ≡ₚ a :: refs o.
Proof.
  intros Hget Hcase. unfold Js.set. destruct (Js.has o k) eqn:Hhas.
  - by apply refs_replace.
  - destruct Hcase as [|Hacc]; [done|].
    assert (refs (Js.create o k (Some a)) ≡ₚ a :: refs o) as Hcreate.
    { unfold Js.create. destruct (Js.array_index k).
      - apply refs_insert_index.
      - unfold refs. rewrite omap_app. simpl.
        symmetry. apply Permutation_cons_append. }
    destruct (object_prototype k) as [[n|]|]; done.
Qed.

Lemma refs_replace_None (o : obj) (k : key) :
  refs (Js.replace o k None) `sublist_of` refs o.
Proof.
  unfold refs. induction o as [|[k0 v0] o IH]; simpl; [done|].
  destruct (decide (k0 = k)) as [->|Hne]; simpl.
  - destruct v0; simpl; [by apply sublist_cons|done].
  - destruct v0; simpl; [by apply sublist_skip|done].
Qed.

Lemma refs_insert_index_None (o : obj) (n : N) (k : key) :
  refs (Js.insert_index o n k None) = refs o.
Proof.
  unfold refs. induction o as [|[k0 v0] o IH]; simpl; [done|].
  destruct (Js.array_index k0) as [n'|]; [destruct (n <? n')%N|]; simpl; try done.
  destruct v0; simpl; [f_equal|]; apply IH.
Qed.

(** Making a property [undefined] only takes references away. *)
Lemma refs_set_None (o : obj) (k : key) :
  refs (Js.set o k None) `sublist_of` refs o.
Proof.
  unfold Js.set. destruct (Js.has o k).
  - apply refs_replace_None.
  - assert (refs (Js.create o k None) = refs o) as Hcreate.
    { unfold Js.create. destruct (Js.array_index k).
      - by rewrite refs_insert_index_None.
      - unfold refs. rewrite omap_app. simpl. by rewrite app_nil_r. }
    destruct (object_prototype k) as [[n|]|]; by rewrite ?Hcreate.
Qed.

Lemma has_keys (o : obj) (k : key) : Js.has o k = true ↔ k ∈ Js.keys o.
Proof.
  unfold Js.keys. induction o as [|[k0 v0] o IH]; simpl.
  - split; [done|]. intros Hin. by apply elem_of_nil in Hin.
  - rewrite elem_of_cons. destruct (decide (k0 = k)) as [->|Hne].
    + split; auto.
    + rewrite IH. split; [auto|]. intros [|]; [congruence|done].
Qed.

(** The filter of [eventNames] keeps the keys whose own value is an
    array. *)
Lemma defined_keys_kept (o : obj) : defined_keys o = kept_keys o.
Proof.
  unfold defined_keys, kept_keys.
  assert (∀ l : list key, (∀ k, k ∈ l → Js.has o k = true) →
            filter (λ k, Js.get o k ≠ Js.Undefined) l
            = filter (λ k, is_Some (Js.own o k)) l) as Hfilter.
  { induction l as [|k l IH]; intros Hl; [done|].
    rewrite !filter_cons, IH
      by (intros k' Hk'; apply Hl; by apply list_elem_of_further).
    rewrite get_own by (left; apply Hl, list_elem_of_here).
    destruct (Js.own o k) as [a|].
    - rewrite decide_True by done. by rewrite decide_True by (by eexists).
    - rewrite decide_False by (intros Hne; by apply Hne).
      by rewrite decide_False by (by intros [? ?]). }
  apply Hfilter. intros k Hk. by apply has_keys.
Qed.

Lemma elem_of_kept_keys (o : obj) (k : key) :
  k ∈ kept_keys o ↔ is_Some (Js.own o k).
Proof.
  unfold kept_keys. rewrite list_elem_of_filter. split.
  - by intros [Hget _].
  - intros [a Hget]. split; [by eexists|].
    apply has_keys. by eapply own_Some_has.
Qed.

Context {A : Type} `{EqDecision A}.

Lemma indexOf_bounds (l : list A) (x : A) :
  (-1 ≤ Js.indexOf l x < Z.of_nat (length l))%Z.
Proof.
  induction l as [|y l IH]; simpl; [lia|].
  destruct (decide (y = x)); [lia|].
  destruct (Z.eqb_spec (Js.indexOf l x) (-1)); lia.
Qed.

Lemma indexOf_absent (l : list A) (x : A) :
  Js.indexOf l x = (-1)%Z ↔ x ∉ l.
Proof.
  induction l as [|y l IH]; simpl.
  - split; [intros _; apply not_elem_of_nil | done].
  - destruct (decide (y = x)) as [->|Hne].
    + split; [lia | intros Hn; destruct Hn; apply list_elem_of_here].
    + rewrite not_elem_of_cons.
      destruct (Z.eqb_spec (Js.indexOf l x) (-1)) as [Heq|Hneq].
      * split; [intros _; split; [congruence | by apply IH] | done].
      * pose proof (indexOf_bounds l x).
        split; [lia | intros [_ Hn]; apply IH in Hn; done].
Qed.

Lemma indexOf_lookup (l : list A) (x : A) :
  x ∈ l → l !! Z.to_nat (Js.indexOf l x) = Some x.
Proof.
  induction l as [|y l IH]; simpl.
  - intros Hin. by apply elem_of_nil in Hin.
  - destruct (decide (y = x)) as [->|Hne]; [done|].
    intros Hin. apply elem_of_cons in Hin as [->|Hin]; [done|].
    pose proof (indexOf_bounds l x).
    destruct (Z.eqb_spec (Js.indexOf l x) (-1)) as [Heq|Hneq].
    + apply indexOf_absent in Heq. done.
    + replace (Z.to_nat (Js.indexOf l x + 1)) with (S (Z.to_nat (Js.indexOf l x))) by lia.
      simpl. by apply IH.
Qed.

End JsFacts.

(** ** Facts about the store and the monad *)

(** Unfolds the monad and the primitive reads and writes. *)
Ltac munfold :=
  unfold mbind, M_bind, mret, M_ret, read, write, reset, gets, modify, throw,
    new_array, update_array, return_this, length_of, length_opt, index_of,
    elements_or_empty.

Section StoreFacts.

Context {listener : Type} `{EqDecision listener} {value : Type} `{Host}.

Local Abbreviation World := (@World listener value).
Local Abbreviation M := (@M listener value).

Implicit Types (w : World) (a b : loc) (fld : field) (event : key).

Lemma elements_alter w a (f : list listener → list listener) :
  a < length (heap w) →
  elements (with_heap (alter f a) w) a = f (elements w a).
Proof.
  intros Hlt. unfold elements, with_heap; simpl.
  rewrite list_lookup_alter_eq.
  destruct (heap w !! a) eqn:E; [done|].
  apply lookup_ge_None in E. lia.
Qed.

Lemma elements_alter_ne w a b (f : list listener → list listener) :
  a ≠ b → elements (with_heap (alter f a) w) b = elements w b.
Proof.
  intros Hne. unfold elements, with_heap; simpl.
  by rewrite list_lookup_alter_ne.
Qed.

Lemma elements_alloc w b :
  b < length (heap w) →
  elements (with_heap (λ h, h ++ [[]]) w) b = elements w b.
Proof.
  intros Hlt. unfold elements, with_heap; simpl. by rewrite lookup_app_l.
Qed.

Lemma elements_alloc_new w :
  elements (with_heap (λ h, h ++ [[]]) w) (length (heap w)) = [].
Proof.
  unfold elements, with_heap; simpl.
  rewrite lookup_app_r by lia. by rewrite Nat.sub_diag.
Qed.

Lemma splice1_indexOf (l : list listener) (x : listener) :
  x ∈ l → Js.splice1 l (Js.indexOf l x) = remove_first x l.
Proof.
  intros Hin. unfold Js.splice1.
  pose proof (indexOf_bounds l x) as Hb.
  assert (Js.indexOf l x ≠ (-1)%Z) as Hne by (rewrite indexOf_absent; tauto).
  destruct (Z.ltb_spec (Js.indexOf l x) 0) as [|Hge]; [lia|].
  rewrite Z.min_l by lia. clear Hb Hne Hge.
  induction l as [|y l IH]; simpl.
  - by apply elem_of_nil in Hin.
  - destruct (decide (y = x)) as [->|Hne]; [done|].
    apply elem_of_cons in Hin as [->|Hin]; [done|].
    pose proof (indexOf_bounds l x).
    destruct (Z.eqb_spec (Js.indexOf l x) (-1)) as [Heq|Hneq].
    + apply indexOf_absent in Heq. done.
    + replace (Z.to_nat (Js.indexOf l x + 1)) with (S (Z.to_nat (Js.indexOf l x))) by lia.
      simpl. f_equal. by apply IH.
Qed.

Lemma remove_first_absent (l : list listener) (x : listener) :
  x ∉ l → remove_first x l = l.
Proof.
  induction l as [|y l IH]; simpl; [done|].
  rewrite not_elem_of_cons. intros [Hne Hn].
  destruct (decide (y = x)); [congruence|]. f_equal. by apply IH.
Qed.

Lemma field_of_put fld (o : obj) (em : EventEmitter) :
  field_of fld (field_put fld o em) = o.
Proof. by destruct fld. Qed.

Lemma field_of_put_ne fld fld' (o : obj) (em : EventEmitter) :
  fld ≠ fld' → field_of fld' (field_put fld o em) = field_of fld' em.
Proof. by destruct fld, fld'. Qed.

Lemma maxListeners_put fld (o : obj) (em : EventEmitter) :
  maxListeners (field_put fld o em) = maxListeners em.
Proof. by destruct fld. Qed.

(** All the array references of an emitter. *)
Lemma all_refs_put fld event a (em : EventEmitter) :
  Js.own (field_of fld em) event = None →
  Js.has (field_of fld em) event = true ∨ object_prototype event ≠ Some ProtoAccessor →
  let em' := field_put fld (Js.set (field_of fld em) event (Some a)) em in
  refs (onListeners em') ++ refs (onceListeners em')
  ≡ₚ a :: (refs (onListeners em) ++ refs (onceListeners em)).
Proof.
  intros Hget Hcase. destruct fld; simpl in *.
  - by rewrite refs_set.
  - rewrite refs_set by done. symmetry. apply Permutation_middle.
Qed.

Lemma own_valid w fld event a :
  wf w → Js.own (field_of fld (this w)) event = Some a → a < length (heap w).
Proof.
  intros (_ & Hall & _) Hget. rewrite Forall_forall in Hall. apply Hall.
  apply own_Some_refs in Hget. rewrite elem_of_app. destruct fld; auto.
Qed.

Lemma own_same_ref (o : obj) event event' a :
  NoDup (refs o) →
  Js.own o event = Some a → Js.own o event' = Some a → event = event'.
Proof.
  unfold refs. induction o as [|[k0 v0] o IH]; simpl; [done|].
  intros Hnd.
  destruct (decide (k0 = event)) as [->|Hne], (decide (_ = event')) as [<-|Hne'];
    try done.
  - intros -> Hget. simpl in Hnd. apply NoDup_cons in Hnd as [Hnotin _].
    destruct Hnotin. by apply (own_Some_refs o event').
  - intros Hget ->. simpl in Hnd. apply NoDup_cons in Hnd as [Hnotin _].
    destruct Hnotin. by apply (own_Some_refs o event).
  - intros H1 H2. destruct v0; simpl in Hnd; [apply NoDup_cons in Hnd as [_ Hnd]|];
      by apply IH.
Qed.

(** Two different properties never hold the same array. *)
Lemma own_distinct w fld fld' event event' a b :
  wf w →
  Js.own (field_of fld (this w)) event = Some a →
  Js.own (field_of fld' (this w)) event' = Some b →
  fld ≠ fld' ∨ event ≠ event' → a ≠ b.
Proof.
  intros (Hnd & _ & _) Ha Hb Hor ->.
  apply NoDup_app in Hnd as (Hnd1 & Hdis & Hnd2).
  destruct fld, fld'; simpl in *.
  - destruct Hor as [|He]; [done|]. apply He.
    exact (own_same_ref _ _ _ _ Hnd1 Ha Hb).
  - apply own_Some_refs in Ha, Hb. exact (Hdis _ Ha Hb).
  - apply own_Some_refs in Ha, Hb. exact (Hdis _ Hb Ha).
  - destruct Hor as [|He]; [done|]. apply He.
    exact (own_same_ref _ _ _ _ Hnd2 Ha Hb).
Qed.

(** What a direct lookup gives. *)
Lemma get_direct w fld event :
  direct fld event w →
  Js.get (field_of fld (this w)) event
  = match Js.own (field_of fld (this w)) event with
    | Some a => Js.Array a
    | None => Js.Undefined
    end.
Proof. intros Hd. by apply get_own. Qed.

Lemma get_own_Some w fld event a :
  Js.own (field_of fld (this w)) event = Some a →
  Js.get (field_of fld (this w)) event = Js.Array a.
Proof.
  intros Hown. rewrite get_own, Hown; [done|].
  left. by eapply own_Some_has.
Qed.

Lemma direct_own_Some w fld event a :
  Js.own (field_of fld (this w)) event = Some a → direct fld event w.
Proof. intros Hown. left. by eapply own_Some_has. Qed.

(** In a well-formed registry a lookup is direct in both objects or in
    none. *)
Lemma direct_both w fld fld' event :
  wf w → direct fld event w → direct fld' event w.
Proof.
  intros (_ & _ & Hpair) [Hhas|Hplain]; [|by right].
  destruct (object_prototype event) as [i|] eqn:Hi; [|by right].
  left. specialize (Hpair event). rewrite Hi in Hpair.
  destruct fld, fld'; simpl in *; rewrite ?Hpair in * by done;
    try done; by rewrite <- Hpair.
Qed.

(** A lookup is direct or gives what the prototype holds. *)
Lemma direct_or_inherited w fld event :
  direct fld event w
  ∨ ∃ i, Js.get (field_of fld (this w)) event = Js.Inherited i
         ∧ Js.has (field_of fld (this w)) event = false
         ∧ object_prototype event = Some i.
Proof.
  destruct (get_cases (field_of fld (this w)) event) as [[_ Hd]|Hi];
    [by left | by right].
Qed.

Lemma check_limit_run fld event w a :
  Js.get (field_of fld (this w)) event = Js.Array a →
  check_limit fld event w =
    (if (Z.of_nat (length (elements w a)) >? maxListeners (this w))%Z
     then Throw (ErrorObj (leak_message (Some (length (elements w a)))))
     else Ret (this w), w).
Proof.
  intros Hget. unfold check_limit. munfold. simpl. rewrite Hget. simpl.
  destruct (Z.of_nat (length (elements w a)) >? maxListeners (this w))%Z; simpl; [|done].
  by rewrite Hget.
Qed.

(** An adding method on a name that the lookup finds on the
    prototype: the array method is not there. *)
Lemma add_with_inherited fld (put : Js.property → listener → M unit)
    event (f : listener) w i :
  (∀ j x, put (Js.Inherited j) x = throw TypeError) →
  Js.get (field_of fld (this w)) event = Js.Inherited i →
  add_with fld put event f w = (Throw TypeError, w).
Proof.
  intros Hput Hget. unfold add_with. munfold. simpl. rewrite Hget. simpl.
  rewrite Hget, Hput. done.
Qed.

Lemma add_with_spec fld (put : Js.property → listener → M unit)
    (ins : listener → list listener → list listener) event (f : listener) w :
  (∀ a x, put (Js.Array a) x = update_array a (ins x)) →
  wf w → direct fld event w →
  ∃ w',
    add_with fld put event f w =
      (if (Z.of_nat (length (ins f (listeners_in fld event w)))
             >? maxListeners (this w))%Z
       then Throw (ErrorObj
              (leak_message (Some (length (ins f (listeners_in fld event w))))))
       else Ret (this w'), w')
    ∧ wf w'
    ∧ listeners_in fld event w' = ins f (listeners_in fld event w)
    ∧ (∀ fld' event', fld' ≠ fld ∨ event' ≠ event →
         listeners_in fld' event' w' = listeners_in fld' event' w)
    ∧ maxListeners (this w') = maxListeners (this w)
    ∧ calls w' = calls w
    ∧ Js.has (field_of fld (this w')) event = true
    ∧ (∀ fld' event', fld' ≠ fld ∨ event' ≠ event →
         Js.get (field_of fld' (this w')) event'
         = Js.get (field_of fld' (this w)) event')
    ∧ (∀ fld' event', Js.has (field_of fld' (this w)) event' = true →
         Js.has (field_of fld' (this w')) event' = true).
Proof.
  intros Hput Hwf Hd. unfold add_with.
  pose proof (get_direct _ _ _ Hd) as Hget.
  destruct (Js.own (field_of fld (this w)) event) as [a|] eqn:Hown.
  - exists (with_heap (alter (ins f) a) w).
    pose proof (own_valid _ _ _ _ Hwf Hown) as Hlt.
    assert (listeners_in fld event w = elements w a) as Hl
      by (unfold listeners_in; by rewrite Hown).
    split; [|split; [|split; [|split; [|split; [|split; [|split; [|split]]]]]]];
      try done.
    + munfold. simpl. rewrite Hget. simpl. rewrite Hget, Hput. munfold. simpl.
      rewrite (check_limit_run fld event _ a) by done.
      rewrite elements_alter by done. rewrite Hl. done.
    + destruct Hwf as (Hnd & Hall & Hpair). split; [done|]. split; [|done].
      simpl. by rewrite length_alter.
    + unfold listeners_in at 1. simpl. rewrite Hown, Hl. by apply elements_alter.
    + intros fld' event' Hor. unfold listeners_in. simpl.
      destruct (Js.own (field_of fld' (this w)) event') as [b|] eqn:Hget'; [|done].
      apply elements_alter_ne.
      eapply (own_distinct w fld fld'); eauto. destruct Hor; auto.
    + simpl. by eapply own_Some_has.
  - set (a := length (heap w)).
    set (em' := field_put fld (Js.set (field_of fld (this w)) event (Some a)) (this w)).
    exists (mkWorld (alter (ins f) a (heap w ++ [[]])) em' (calls w)).
    assert (listeners_in fld event w = []) as Hl
      by (unfold listeners_in; by rewrite Hown).
    assert (Js.has (field_of fld (this w)) event = true
            ∨ object_prototype event ≠ Some ProtoAccessor) as Hcase.
    { destruct Hd as [|Hp]; [by left|right]. unfold plain in Hp. by rewrite Hp. }
    assert (Js.own (field_of fld em') event = Some a) as Hown'.
    { unfold em'. rewrite field_of_put. by apply own_set_eq. }
    assert (Js.get (field_of fld em') event = Js.Array a) as Hget'.
    { rewrite get_own, Hown'; [done|]. left. by eapply own_Some_has. }
    assert (∀ fld' event', Js.has (field_of fld' (this w)) event' = true →
              Js.has (field_of fld' em') event' = true) as Hmono.
    { intros fld' event' Hhas. unfold em'.
      destruct (decide (fld = fld')) as [<-|Hf]; [|by rewrite field_of_put_ne].
      rewrite field_of_put.
      destruct (decide (event = event')) as [<-|He].
      - by rewrite has_set_eq, Hhas.
      - by rewrite has_set_ne. }
    split; [|split; [|split; [|split; [|split; [|split; [|split; [|split]]]]]]].
    + munfold. simpl. rewrite Hget. simpl. fold a. fold em'.
      unfold with_this, with_heap. simpl. fold em'.
      rewrite Hget'. rewrite Hput. munfold. simpl.
      unfold with_heap. simpl.
      rewrite (check_limit_run fld event _ a) by done.
      assert (elements (mkWorld (alter (ins f) a (heap w ++ [[]])) em' (calls w)) a
              = ins f []) as ->.
      { unfold elements. simpl. rewrite list_lookup_alter_eq.
        rewrite lookup_app_r by (unfold a; lia). unfold a.
        by rewrite Nat.sub_diag. }
      simpl. unfold em' at 1. rewrite maxListeners_put, Hl. done.
    + destruct Hwf as (Hnd & Hall & Hpair).
      pose proof (all_refs_put fld event a (this w) Hown Hcase) as Hperm.
      cbv zeta in Hperm. fold em' in Hperm.
      split; [|split]; simpl.
      * rewrite Hperm.
        apply NoDup_cons. split; [|done].
        intros Hin. rewrite Forall_forall in Hall. apply Hall in Hin.
        unfold a in Hin. lia.
      * rewrite Hperm.
        rewrite length_alter, length_app. simpl.
        apply Forall_cons. split; [unfold a; lia|].
        eapply Forall_impl; [exact Hall|]. simpl. intros; lia.
      * intros k Hk. specialize (Hpair k Hk).
        assert (∀ fld', Js.has (field_of fld' em') k
                        = Js.has (field_of fld' (this w)) k) as Hsame.
        { intros fld'. unfold em'.
          destruct (decide (fld = fld')) as [<-|Hf]; [|by rewrite field_of_put_ne].
          rewrite field_of_put.
          destruct (decide (event = k)) as [<-|He]; [|by rewrite has_set_ne].
          rewrite has_set_eq. destruct Hd as [Hhas|Hp]; [by rewrite Hhas|done]. }
        exact (eq_trans (Hsame OnListeners)
                 (eq_trans Hpair (eq_sym (Hsame OnceListeners)))).
    + unfold listeners_in at 1. simpl. rewrite Hown', Hl.
      unfold elements. simpl. rewrite list_lookup_alter_eq.
      rewrite lookup_app_r by (unfold a; lia). unfold a.
      by rewrite Nat.sub_diag.
    + intros fld' event' Hor. unfold listeners_in. simpl.
      assert (Js.own (field_of fld' em') event'
              = Js.own (field_of fld' (this w)) event') as ->.
      { unfold em'. destruct (decide (fld = fld')) as [<-|Hf].
        - rewrite field_of_put. apply own_set_ne. destruct Hor; congruence.
        - by rewrite field_of_put_ne. }
      destruct (Js.own (field_of fld' (this w)) event') as [b|] eqn:Hgetb; [|done].
      pose proof (own_valid _ _ _ _ Hwf Hgetb) as Hlt.
      unfold elements. simpl.
      rewrite list_lookup_alter_ne by (unfold a; lia).
      by rewrite lookup_app_l.
    + simpl. unfold em'. apply maxListeners_put.
    + done.
    + simpl. by eapply own_Some_has.
    + intros fld' event' Hor. simpl. unfold em'.
      destruct (decide (fld = fld')) as [<-|Hf].
      * rewrite field_of_put. apply get_set_ne. destruct Hor; congruence.
      * by rewrite field_of_put_ne.
    + exact Hmono.
Qed.

End StoreFacts.

(** ** Facts about dispatch *)

Section DispatchFacts.

Context {listener : Type} `{EqDecision listener} {value : Type} `{Host}.

Local Abbreviation World := (@World listener value).
Local Abbreviation M := (@M listener value).

Variable body : listener → list value → M unit.

Implicit Types (w : World) (a b : loc) (fld : field) (event : key)
  (f g x : listener) (args : list value).

Lemma direct_this fld event w w' :
  this w' = this w → direct fld event w → direct fld event w'.
Proof. unfold direct. by intros ->. Qed.

Lemma none_registered_run fld event w :
  direct fld event w →
  none_registered fld event w
  = (Ret (bool_decide (listeners_in fld event w = [])), w).
Proof.
  intros Hd. unfold none_registered, listeners_in. munfold. simpl.
  rewrite (get_direct _ _ _ Hd).
  destruct (Js.own (field_of fld (this w)) event) as [a|]; simpl.
  - f_equal. f_equal. by destruct (elements w a).
  - done.
Qed.

(** The test of [emit] on a name found on the prototype: only a
    function without parameters has the length 0. *)
Lemma none_registered_inherited fld event w i :
  Js.get (field_of fld (this w)) event = Js.Inherited i →
  none_registered fld event w = (Ret (bool_decide (i = Method 0)), w).
Proof.
  intros Hget. unfold none_registered. munfold. simpl. rewrite Hget. simpl.
  f_equal. f_equal. destruct i as [[|n]|]; simpl; done.
Qed.

Lemma call_quiet f args w :
  quiet body f →
  call body f args w = (Ret tt, with_calls (λ c, c ++ [(f, args)]) w).
Proof. intros Hq. unfold call. munfold. simpl. apply Hq. Qed.

Lemma with_calls_app w (c1 c2 : list (listener * list value)) :
  with_calls (λ c, c ++ c2) (with_calls (λ c, c ++ c1) w)
  = with_calls (λ c, c ++ c1 ++ c2) w.
Proof. unfold with_calls. simpl. by rewrite app_assoc. Qed.

Lemma with_calls_nil w : with_calls (λ c, c ++ []) w = w.
Proof. destruct w. unfold with_calls. simpl. by rewrite app_nil_r. Qed.

(** A [forEach] whose callback only calls quiet listeners visits the
    elements from its index on, in order. *)
Lemma forEach_from_quiet a args n k w :
  (∀ x, x ∈ elements w a → quiet body x) →
  forEach_from a (λ l, call body l args) k n w
  = (Ret tt,
     with_calls (λ c, c ++ invoked args (take n (drop k (elements w a)))) w).
Proof.
  revert k w. induction n as [|n IH]; intros k w Hq; simpl.
  - unfold invoked. simpl. by rewrite with_calls_nil.
  - destruct (elements w a !! k) as [x|] eqn:Hk.
    + munfold. rewrite call_quiet by (apply Hq; by eapply list_elem_of_lookup_2).
      rewrite IH by exact Hq.
      change (elements (with_calls _ w) a) with (elements w a).
      rewrite with_calls_app. rewrite (drop_S _ _ _ Hk). done.
    + rewrite IH by exact Hq.
      apply lookup_ge_None in Hk.
      rewrite !drop_ge by lia. by rewrite !take_nil.
Qed.

Lemma forEach_quiet fld event args w :
  direct fld event w →
  (∀ x, x ∈ listeners_in fld event w → quiet body x) →
  forEach (Js.get (field_of fld (this w)) event) (λ l, call body l args) w
  = (Ret tt, with_calls (λ c, c ++ invoked args (listeners_in fld event w)) w).
Proof.
  intros Hd. rewrite (get_direct _ _ _ Hd). unfold listeners_in, forEach.
  destruct (Js.own (field_of fld (this w)) event) as [a|]; intros Hq.
  - rewrite forEach_from_quiet by done. by rewrite drop_0, firstn_all.
  - unfold invoked. simpl. by rewrite with_calls_nil.
Qed.

(** The effect of changing one array in place. *)
Lemma alter_array_spec fld event a (h : list listener → list listener) w :
  wf w → Js.own (field_of fld (this w)) event = Some a →
  wf (with_heap (alter h a) w)
  ∧ listeners_in fld event (with_heap (alter h a) w)
    = h (listeners_in fld event w)
  ∧ (∀ fld' event', fld' ≠ fld ∨ event' ≠ event →
       listeners_in fld' event' (with_heap (alter h a) w)
       = listeners_in fld' event' w).
Proof.
  intros Hwf Hget.
  pose proof (own_valid _ _ _ _ Hwf Hget) as Hlt.
  split; [|split].
  - destruct Hwf as (Hnd & Hall & Hpair). split; [done|]. split; [|done].
    simpl. by rewrite length_alter.
  - unfold listeners_in. simpl. rewrite Hget. by apply elements_alter.
  - intros fld' event' Hor. unfold listeners_in. simpl.
    destruct (Js.own (field_of fld' (this w)) event') as [b|] eqn:Hget'; [|done].
    apply elements_alter_ne.
    eapply (own_distinct w fld fld'); eauto. destruct Hor; auto.
Qed.

(** The second block of [off] removes the first occurrence of the
    listener from the persistent array, if there is one. *)
Lemma off_persistent_spec event x w :
  wf w → direct OnListeners event w →
  ∃ w', off_persistent event x w = (Ret (this w'), w')
    ∧ this w' = this w ∧ calls w' = calls w ∧ wf w'
    ∧ listeners_in OnListeners event w'
      = remove_first x (listeners_in OnListeners event w)
    ∧ (∀ fld' event', fld' ≠ OnListeners ∨ event' ≠ event →
         listeners_in fld' event' w' = listeners_in fld' event' w).
Proof.
  intros Hwf Hd. unfold off_persistent. munfold. simpl.
  pose proof (get_direct _ _ _ Hd) as Hget. simpl in Hget. rewrite Hget.
  destruct (Js.own (onListeners (this w)) event) as [a|] eqn:Hown; simpl.
  - assert (listeners_in OnListeners event w = elements w a) as Hl
      by (unfold listeners_in; simpl; by rewrite Hown).
    destruct (Z.eqb_spec (Js.indexOf (elements w a) x) (-1)) as [Heq|Hneq].
    + exists w. apply indexOf_absent in Heq.
      rewrite Hl, remove_first_absent by done. done.
    + rewrite Hget. simpl. munfold.
      assert (x ∈ elements w a) as Hin.
      { destruct (decide (x ∈ elements w a)) as [|Hn]; [done|].
        by apply indexOf_absent in Hn. }
      destruct (alter_array_spec OnListeners event a
                  (λ l, Js.splice1 l (Js.indexOf (elements w a) x)) w Hwf Hown)
        as (Hwf' & Hhere & Hframe).
      eexists. split; [reflexivity|]. split; [done|]. split; [done|].
      split; [done|]. split; [|done].
      rewrite Hhere, Hl. by apply splice1_indexOf.
  - exists w. unfold listeners_in. simpl. rewrite Hown. done.
Qed.

(** The first block of [off] returns when the one-shot array exists
    and does not hold the listener. *)
Lemma off_early_return event x w :
  is_Some (Js.own (onceListeners (this w)) event) →
  x ∉ listeners_in OnceListeners event w →
  off event x w = (Ret (this w), w).
Proof.
  intros [b Hown]. unfold listeners_in. simpl. rewrite Hown. intros Hn.
  pose proof (get_own_Some w OnceListeners event b Hown) as Hget.
  simpl in Hget.
  unfold off. munfold. simpl. rewrite Hget. simpl.
  apply indexOf_absent in Hn. by rewrite Hn.
Qed.

(** [off] on a name that the lookup finds on the prototype: [indexOf]
    is not there. *)
Lemma off_inherited event x w i :
  Js.get (onceListeners (this w)) event = Js.Inherited i →
  off event x w = (Throw TypeError, w).
Proof. intros Hget. unfold off. munfold. simpl. by rewrite Hget. Qed.

(** Otherwise [off] removes the first occurrence of the listener from
    the one-shot array and from the persistent array. *)
Lemma off_removes event x w :
  wf w → direct OnceListeners event w →
  Js.own (onceListeners (this w)) event = None
    ∨ x ∈ listeners_in OnceListeners event w →
  ∃ w', off event x w = (Ret (this w'), w')
    ∧ this w' = this w ∧ calls w' = calls w ∧ wf w'
    ∧ listeners_in OnceListeners event w'
      = remove_first x (listeners_in OnceListeners event w)
    ∧ listeners_in OnListeners event w'
      = remove_first x (listeners_in OnListeners event w)
    ∧ (∀ fld' event', event' ≠ event →
         listeners_in fld' event' w' = listeners_in fld' event' w).
Proof.
  intros Hwf Hd Hcase.
  pose proof (direct_both w _ OnListeners event Hwf Hd) as Hd'.
  unfold off. munfold. simpl.
  pose proof (get_direct _ _ _ Hd) as Hget. simpl in Hget. rewrite Hget.
  destruct (Js.own (onceListeners (this w)) event) as [b|] eqn:Hown; simpl.
  - destruct Hcase as [|Hin]; [done|].
    assert (listeners_in OnceListeners event w = elements w b) as Hl
      by (unfold listeners_in; simpl; by rewrite Hown).
    rewrite Hl in Hin.
    destruct (Z.eqb_spec (Js.indexOf (elements w b) x) (-1)) as [Heq|Hneq].
    { apply indexOf_absent in Heq. done. }
    rewrite Hget. simpl. munfold.
    destruct (alter_array_spec OnceListeners event b
                (λ l, Js.splice1 l (Js.indexOf (elements w b) x)) w Hwf Hown)
      as (Hwf1 & Hhere & Hframe).
    destruct (off_persistent_spec event x _ Hwf1)
      as (w' & Hrun & Hthis & Hcalls & Hwf' & Hon & Hframe'); [exact Hd'|].
    exists w'. rewrite Hrun.
    split; [done|]. split; [by rewrite Hthis|]. split; [by rewrite Hcalls|].
    split; [done|]. split; [|split].
    + rewrite Hframe' by (by left). rewrite Hhere, Hl. by apply splice1_indexOf.
    + rewrite Hon. by rewrite Hframe by (by left).
    + intros fld' event' Hne. rewrite Hframe' by (by right).
      by rewrite Hframe by (by right).
  - destruct (off_persistent_spec event x w Hwf Hd')
      as (w' & Hrun & Hthis & Hcalls & Hwf' & Hon & Hframe').
    exists w'. rewrite Hrun.
    split; [done|]. split; [done|]. split; [done|]. split; [done|].
    split; [|split].
    + rewrite Hframe' by (by left).
      unfold listeners_in. simpl. by rewrite Hown.
    + done.
    + intros fld' event' Hne. by rewrite Hframe' by (by right).
Qed.

Lemma listeners_in_Some fld event w a :
  Js.own (field_of fld (this w)) event = Some a →
  listeners_in fld event w = elements w a.
Proof. intros Hget. unfold listeners_in. by rewrite Hget. Qed.

Lemma listeners_in_with_calls fld event w
    (h : list (listener * list value) → list (listener * list value)) :
  listeners_in fld event (with_calls h w) = listeners_in fld event w.
Proof. done. Qed.

Lemma splice_shrinks a b (i : Z) w :
  elements (with_heap (alter (λ l, Js.splice1 l i) b) w) a ⊆ elements w a.
Proof.
  unfold elements, with_heap. simpl.
  destruct (decide (b = a)) as [->|Hne].
  - rewrite list_lookup_alter_eq. destruct (heap w !! a) as [l|]; simpl; [|done].
    unfold Js.splice1. apply sublist_subseteq, sublist_delete.
  - by rewrite list_lookup_alter_ne.
Qed.

(** When both lookups are direct [off] returns, and whatever it does,
    it only takes elements out of arrays. *)
Lemma off_shrinks event x w :
  direct OnListeners event w → direct OnceListeners event w →
  ∃ w', off event x w = (Ret (this w'), w')
    ∧ this w' = this w ∧ calls w' = calls w
    ∧ ∀ a, elements w' a ⊆ elements w a.
Proof.
  intros Hd1 Hd2.
  assert (∀ w0, this w0 = this w →
            ∃ w', off_persistent event x w0 = (Ret (this w'), w')
            ∧ this w' = this w0 ∧ calls w' = calls w0
            ∧ ∀ a, elements w' a ⊆ elements w0 a) as Hpers.
  { intros w0 Hw0. unfold off_persistent. munfold. simpl.
    pose proof (get_direct _ _ _ (direct_this _ _ _ _ Hw0 Hd1)) as Hget.
    simpl in Hget. rewrite Hget.
    destruct (Js.own (onListeners (this w0)) event) as [a|] eqn:Hown; simpl.
    - destruct (Js.indexOf (elements w0 a) x =? -1)%Z.
      + by exists w0.
      + rewrite Hget. simpl. munfold. eexists. split; [reflexivity|].
        split; [done|]. split; [done|]. intros c. apply splice_shrinks.
    - by exists w0. }
  unfold off. munfold. simpl.
  pose proof (get_direct _ _ _ Hd2) as Hget. simpl in Hget. rewrite Hget.
  destruct (Js.own (onceListeners (this w)) event) as [b|] eqn:Hown; simpl.
  - destruct (Js.indexOf (elements w b) x =? -1)%Z.
    + by exists w.
    + rewrite Hget. simpl. munfold.
      destruct (Hpers (with_heap
                  (alter (λ l, Js.splice1 l (Js.indexOf (elements w b) x)) b) w))
        as (w' & Hrun & Hthis & Hcalls & Hsub); [done|].
      exists w'. rewrite Hrun. split; [done|]. split; [done|]. split; [done|].
      intros c. etrans; [apply Hsub|apply splice_shrinks].
  - by apply Hpers.
Qed.



(** No persistent listener: [emit] returns [false] at once. *)
Lemma emit_none event args w :
  direct OnListeners event w →
  listeners_in OnListeners event w = [] →
  emit body event args w = (Ret false, w).
Proof.
  intros Hd Hl. unfold emit, mbind, M_bind. rewrite none_registered_run by done.
  by rewrite Hl.
Qed.

(** [emit] on a name that the lookup finds on the prototype: [false]
    for a function without parameters, and otherwise the failed call
    of [forEach]. *)
Lemma emit_inherited event args w i :
  Js.get (onListeners (this w)) event = Js.Inherited i →
  emit body event args w
  = (if decide (i = Method 0) then Ret false else Throw TypeError, w).
Proof.
  intros Hget. unfold emit, mbind, M_bind.
  rewrite (none_registered_inherited OnListeners event w i Hget).
  destruct (decide (i = Method 0)) as [->|Hne].
  - by rewrite bool_decide_eq_true_2.
  - rewrite bool_decide_eq_false_2 by done.
    unfold read, gets. simpl. by rewrite Hget.
Qed.


Lemma wf_with_calls w
    (h : list (listener * list value) → list (listener * list value)) :
  wf w → wf (with_calls h w).
Proof. done. Qed.

(** Quiet persistent listeners and no one-shot listener. *)
Lemma emit_once_empty event args w :
  direct OnListeners event w → direct OnceListeners event w →
  listeners_in OnListeners event w ≠ [] →
  (∀ x, x ∈ listeners_in OnListeners event w → quiet body x) →
  listeners_in OnceListeners event w = [] →
  emit body event args w
  = (Ret true,
     with_calls (λ c, c ++ invoked args (listeners_in OnListeners event w)) w).
Proof.
  intros Hd1 Hd2 Hne Hq Hnil. unfold emit, mbind, M_bind.
  rewrite none_registered_run by done. rewrite bool_decide_eq_false_2 by done.
  unfold read at 1. unfold gets at 1.
  rewrite forEach_quiet by done.
  rewrite none_registered_run, listeners_in_with_calls by done.
  by rewrite bool_decide_eq_true_2 by done.
Qed.


End DispatchFacts.

(** ** Facts about the loop over the one-shot array *)

Section LoopFacts.

Context {listener : Type} `{EqDecision listener} {value : Type} `{Host}.

Local Abbreviation World := (@World listener value).
Local Abbreviation M := (@M listener value).

Variable body : listener → list value → M unit.

Implicit Types (w : World) (a b : loc) (fld : field) (event : key)
  (f g x : listener) (args : list value).

(** Past the end of the array, [forEach] has nothing left to visit. *)
Lemma forEach_from_past_end b (cb : listener → M unit) n k w :
  length (elements w b) ≤ k → forEach_from b cb k n w = (Ret tt, w).
Proof.
  revert k. induction n as [|n IH]; intros k Hk; simpl; [done|].
  rewrite (proj2 (lookup_ge_None (elements w b) k)) by lia.
  apply IH. lia.
Qed.

Lemma remove_first_middle (P R : list listener) x :
  x ∉ P → remove_first x (P ++ x :: R) = P ++ R.
Proof.
  induction P as [|y P IH]; simpl.
  - intros _. by destruct (decide (x = x)).
  - rewrite not_elem_of_cons. intros [Hne Hn].
    destruct (decide (y = x)); [congruence|]. f_equal. by apply IH.
Qed.

(** The loop of [emit] over a one-shot array without repetitions:
    each removal shifts the next element to the index just visited,
    so the loop calls every second element only, and the others
    stay. *)
Lemma once_loop_alternates event args b n (P R : list listener) w :
  wf w →
  Js.own (onceListeners (this w)) event = Some b →
  elements w b = P ++ R →
  NoDup (P ++ R) →
  (∀ x, x ∈ R → quiet body x) →
  length R ≤ n →
  ∃ w', forEach_from b (call_once body event args) (length P) n w = (Ret tt, w')
    ∧ this w' = this w ∧ wf w'
    ∧ calls w' = calls w ++ invoked args (evens R)
    ∧ elements w' b = P ++ odds R.
Proof.
  revert P R w. induction n as [|n IH]; intros P R w Hwf Hget Hel Hnd Hq Hlen.
  - destruct R; [|simpl in Hlen; lia]. exists w. simpl.
    unfold invoked. simpl. by rewrite !app_nil_r in *.
  - destruct R as [|x R].
    { exists w. rewrite forEach_from_past_end
        by (rewrite Hel, length_app; simpl; lia).
      unfold invoked. simpl. by rewrite !app_nil_r in *. }
    simpl forEach_from.
    assert (elements w b !! length P = Some x) as Hk.
    { rewrite Hel. rewrite lookup_app_r by lia. by rewrite Nat.sub_diag. }
    rewrite Hk. unfold mbind, M_bind. unfold call_once at 1.
    unfold mbind, M_bind.
    rewrite call_quiet by (apply Hq; apply list_elem_of_here).
    set (w0 := with_calls _ w).
    assert (listeners_in OnceListeners event w0 = P ++ x :: R) as Hl0.
    { unfold w0. rewrite listeners_in_with_calls.
      by rewrite (listeners_in_Some OnceListeners event w b Hget). }
    destruct (off_removes event x w0) as
      (w1 & Hrun & Hthis & Hcalls & Hwf1 & Honce & _).
    { by apply wf_with_calls. }
    { exact (direct_own_Some w OnceListeners event b Hget). }
    { right. rewrite Hl0, elem_of_app. right. apply list_elem_of_here. }
    rewrite Hrun. unfold mret, M_ret.
    assert (x ∉ P) as HxS.
    { apply NoDup_app in Hnd as (_ & Hdis & _). intros HS.
      apply (Hdis x HS). apply list_elem_of_here. }
    assert (Js.own (onceListeners (this w1)) event = Some b) as Hget1
      by (by rewrite Hthis).
    assert (elements w1 b = P ++ R) as Hel1.
    { rewrite <- (listeners_in_Some OnceListeners event w1 b Hget1).
      rewrite Honce, Hl0. by apply remove_first_middle. }
    destruct R as [|y R].
    + exists w1. rewrite forEach_from_past_end
        by (rewrite Hel1, length_app; simpl; lia).
      split; [done|]. split; [by rewrite Hthis|]. split; [done|].
      split; [by rewrite Hcalls|]. by rewrite Hel1.
    + destruct (IH (P ++ [y]) R w1) as (w' & Hloop & Hthis' & Hwf' & Hcalls' & Hel').
      * done.
      * done.
      * by rewrite <- app_assoc.
      * rewrite <- app_assoc. simpl.
        apply NoDup_app in Hnd as (HndS & Hdis & HndR).
        apply NoDup_cons in HndR as [_ HndR].
        apply NoDup_app. split; [done|]. split; [|done].
        intros z Hz Hz'. apply (Hdis z Hz). by apply list_elem_of_further.
      * intros z Hz. apply Hq. by do 2 apply list_elem_of_further.
      * simpl in Hlen. lia.
      * rewrite length_app in Hloop. simpl in Hloop.
        rewrite Nat.add_1_r in Hloop.
        exists w'. split; [exact Hloop|]. split; [by rewrite Hthis', Hthis|].
        split; [done|]. split.
        -- rewrite Hcalls', Hcalls. unfold w0. simpl. unfold invoked. simpl.
           by rewrite <- app_assoc.
        -- rewrite Hel'. by rewrite <- app_assoc.
Qed.

(** [emit] with quiet listeners and a one-shot array without
    repetitions: the persistent listeners are called, then the
    one-shot listeners at the even indices; those at the odd indices
    are neither called nor removed. *)
Lemma emit_alternates event args w :
  wf w →
  listeners_in OnListeners event w ≠ [] →
  (∀ x, x ∈ listeners_in OnListeners event w → quiet body x) →
  (∀ x, x ∈ listeners_in OnceListeners event w → quiet body x) →
  NoDup (listeners_in OnceListeners event w) →
  ∃ w', emit body event args w = (Ret true, w')
    ∧ calls w' = calls w ++ invoked args (listeners_in OnListeners event w)
                   ++ invoked args (evens (listeners_in OnceListeners event w))
    ∧ listeners_in OnceListeners event w'
      = odds (listeners_in OnceListeners event w).
Proof.
  intros Hwf Hne Hq1 Hq2 Hnd.
  assert (direct OnListeners event w) as Hd1.
  { destruct (Js.own (onListeners (this w)) event) as [a|] eqn:Hown;
      [exact (direct_own_Some w OnListeners event a Hown)|].
    unfold listeners_in in Hne. simpl in Hne. by rewrite Hown in Hne. }
  pose proof (direct_both w _ OnceListeners event Hwf Hd1) as Hd2.
  destruct (decide (listeners_in OnceListeners event w = [])) as [Hnil|Hsome].
  { rewrite emit_once_empty by done. eexists. split; [reflexivity|].
    rewrite listeners_in_with_calls, Hnil. simpl. unfold invoked at 2. simpl.
    by rewrite app_nil_r. }
  unfold emit, mbind, M_bind.
  rewrite none_registered_run by done. rewrite bool_decide_eq_false_2 by done.
  unfold read at 1. unfold gets at 1.
  rewrite forEach_quiet by done.
  rewrite none_registered_run, listeners_in_with_calls by done.
  rewrite bool_decide_eq_false_2 by done.
  unfold read, gets. simpl.
  destruct (Js.own (onceListeners (this w)) event) as [b|] eqn:Hget;
    [|unfold listeners_in in Hsome; simpl in Hsome; by rewrite Hget in Hsome].
  rewrite (listeners_in_Some OnceListeners event w b Hget) in Hq2, Hnd |- *.
  pose proof (get_own_Some w OnceListeners event b Hget) as Hget'.
  simpl in Hget'. rewrite Hget'.
  simpl. set (w0 := with_calls _ w).
  destruct (once_loop_alternates event args b (length (elements w0 b))
              [] (elements w b) w0)
    as (w' & Hloop & Hthis & Hwf' & Hcalls & Hel); try done.
  simpl in Hloop. rewrite Hloop. exists w'. split; [done|]. split.
  - rewrite Hcalls. unfold w0. simpl. by rewrite <- app_assoc.
  - rewrite (listeners_in_Some OnceListeners event w' b) by (by rewrite Hthis).
    exact Hel.
Qed.

End LoopFacts.

(** ** Facts about the adding methods and the queries *)

Section MethodFacts.

Context {listener : Type} `{EqDecision listener} {value : Type} `{Host}.

Local Abbreviation World := (@World listener value).
Local Abbreviation M := (@M listener value).

Implicit Types (w : World) (a b : loc) (fld : field) (event : key)
  (f g x : listener) (args : list value).

Lemma push_update a x :
  push (Js.Array a) x = update_array (value:=value) a (at_end x).
Proof. done. Qed.

Lemma unshift_update a x :
  unshift (Js.Array a) x = update_array (value:=value) a (at_front x).
Proof. done. Qed.

Lemma on_add_with : on (listener:=listener) (value:=value) = add_with OnListeners push.
Proof. done. Qed.




(** The emitter record after an adding method does not depend on
    where the listener is put in the array. *)
Lemma add_with_this fld (put : Js.property → listener → M unit)
    (ins : listener → list listener → list listener) event f w :
  (∀ a x, put (Js.Array a) x = update_array a (ins x)) →
  direct fld event w →
  this (after (add_with fld put event f) w)
  = match Js.own (field_of fld (this w)) event with
    | Some _ => this w
    | None =>
        field_put fld
          (Js.set (field_of fld (this w)) event (Some (length (heap w)))) (this w)
    end.
Proof.
  intros Hput Hd. unfold after, add_with. munfold. simpl.
  rewrite (get_direct _ _ _ Hd).
  destruct (Js.own (field_of fld (this w)) event) as [a|] eqn:Hown; simpl.
  - rewrite (get_direct _ _ _ Hd), Hown, Hput. munfold. simpl.
    rewrite (check_limit_run fld event _ a)
      by (simpl; by rewrite (get_direct _ _ _ Hd), Hown).
    by destruct (_ >? _)%Z.
  - assert (Js.own (Js.set (field_of fld (this w)) event (Some (length (heap w))))
              event = Some (length (heap w))) as Hown'.
    { apply own_set_eq. destruct Hd as [|Hp]; [by left|right].
      unfold plain in Hp. by rewrite Hp. }
    assert (Js.get (Js.set (field_of fld (this w)) event (Some (length (heap w))))
              event = Js.Array (length (heap w))) as Hget'.
    { rewrite get_own, Hown'; [done|]. left. by eapply own_Some_has. }
    rewrite field_of_put, Hget', Hput. munfold. simpl.
    rewrite (check_limit_run fld event _ (length (heap w)))
      by (simpl; by rewrite field_of_put).
    by destruct (_ >? _)%Z.
Qed.

(** The count that [listenerCount] takes from a lookup. *)
Lemma length_value_direct fld event w :
  direct fld event w →
  default 0 (length_value w (Js.get (field_of fld (this w)) event))
  = length (listeners_in fld event w).
Proof.
  intros Hd. rewrite (get_direct _ _ _ Hd). unfold listeners_in.
  by destruct (Js.own (field_of fld (this w)) event).
Qed.

Lemma listenerCount_run event w :
  listenerCount event w
  = (Ret (default 0 (length_value w (Js.get (onListeners (this w)) event))
          + default 0 (length_value w (Js.get (onceListeners (this w)) event))),
     w).
Proof. done. Qed.

Lemma listenerCount_direct event w :
  direct OnListeners event w → direct OnceListeners event w →
  listenerCount event w
  = (Ret (length (listeners_in OnListeners event w)
          + length (listeners_in OnceListeners event w)), w).
Proof.
  intros Hd1 Hd2. rewrite listenerCount_run.
  by rewrite <- (length_value_direct _ _ _ Hd1), <- (length_value_direct _ _ _ Hd2).
Qed.

Lemma elements_or_empty_direct fld event w :
  direct fld event w →
  elements_or_empty w (Js.get (field_of fld (this w)) event)
  = listeners_in fld event w.
Proof.
  intros Hd. rewrite (get_direct _ _ _ Hd). unfold listeners_in.
  by destruct (Js.own (field_of fld (this w)) event).
Qed.

Lemma listeners_direct event w :
  direct OnListeners event w → direct OnceListeners event w →
  listeners event w
  = (Ret (Listener <$> (listeners_in OnListeners event w
                        ++ listeners_in OnceListeners event w)), w).
Proof.
  intros Hd1 Hd2.
  rewrite <- (elements_or_empty_direct _ _ _ Hd1),
    <- (elements_or_empty_direct _ _ _ Hd2).
  pose proof (get_direct _ _ _ Hd1) as Hg1.
  pose proof (get_direct _ _ _ Hd2) as Hg2. simpl in *.
  unfold listeners. munfold. simpl. rewrite Hg1, Hg2.
  destruct (Js.own (onListeners (this w)) event);
    by destruct (Js.own (onceListeners (this w)) event).
Qed.

(** [listeners] on a name that the first lookup finds on the
    prototype: [concat] is not there. *)
Lemma listeners_inherited event w i :
  Js.get (onListeners (this w)) event = Js.Inherited i →
  listeners event w = (Throw TypeError, w).
Proof. intros Hget. unfold listeners. munfold. simpl. by rewrite Hget. Qed.

(** An array found by a lookup is the own value. *)
Lemma get_Array_own (o : obj) event a :
  Js.get o event = Js.Array a → Js.own o event = Some a.
Proof.
  unfold Js.get. destruct (Js.has o event).
  - destruct (Js.own o event); [congruence|done].
  - by destruct (object_prototype event).
Qed.

(** The two queries see the lookups and the elements of the arrays
    found. *)
Lemma same_listeners_intro event w w' :
  (∀ fld, Js.get (field_of fld (this w')) event
          = Js.get (field_of fld (this w)) event) →
  (∀ fld, listeners_in fld event w' = listeners_in fld event w) →
  same_listeners event w w'.
Proof.
  intros Hget Hl.
  assert (∀ fld, elements_or_empty w' (Js.get (field_of fld (this w')) event)
                 = elements_or_empty w (Js.get (field_of fld (this w)) event))
    as Hel.
  { intros fld. rewrite Hget.
    destruct (Js.get (field_of fld (this w)) event) as [|a|i] eqn:Hg; try done.
    simpl. pose proof (get_Array_own _ _ _ Hg) as Hown.
    specialize (Hl fld). unfold listeners_in in Hl.
    rewrite Hown in Hl.
    rewrite <- Hget in Hg. apply get_Array_own in Hg. by rewrite Hg in Hl. }
  assert (∀ fld, length_value w' (Js.get (field_of fld (this w')) event)
                 = length_value w (Js.get (field_of fld (this w)) event))
    as Hlen.
  { intros fld. specialize (Hel fld). rewrite Hget in Hel |- *.
    destruct (Js.get (field_of fld (this w)) event) as [|a|i]; try done.
    simpl in *. by rewrite Hel. }
  pose proof (Hget OnListeners) as Hg1. pose proof (Hget OnceListeners) as Hg2.
  pose proof (Hel OnListeners) as He1. pose proof (Hel OnceListeners) as He2.
  pose proof (Hlen OnListeners) as Hn1. pose proof (Hlen OnceListeners) as Hn2.
  simpl in *. split.
  - unfold result, listeners. munfold. simpl. rewrite Hg1, Hg2.
    rewrite Hg1 in He1. rewrite Hg2 in He2.
    destruct (Js.get (onListeners (this w)) event);
      destruct (Js.get (onceListeners (this w)) event); simpl in *;
      rewrite ?He1, ?He2; done.
  - unfold result. rewrite !listenerCount_run. simpl. by rewrite Hn1, Hn2.
Qed.

Lemma same_listeners_refl event w : same_listeners event w w.
Proof. done. Qed.

End MethodFacts.

(** ** Facts about the list of event names *)

Section NamesFacts.

Implicit Types (k : key) (l seen pre : list key).

Lemma indexOf_app_l pre l k :
  k ∈ pre → Js.indexOf (pre ++ l) k = Js.indexOf pre k.
Proof.
  induction pre as [|y pre IH]; simpl.
  - intros Hin. by apply elem_of_nil in Hin.
  - destruct (decide (y = k)); [done|].
    intros Hin. apply elem_of_cons in Hin as [->|Hin]; [done|].
    by rewrite IH.
Qed.

Lemma indexOf_app_fresh pre l k :
  k ∉ pre → Js.indexOf (pre ++ k :: l) k = Z.of_nat (length pre).
Proof.
  induction pre as [|y pre IH]; simpl.
  - intros _. by destruct (decide (k = k)).
  - rewrite not_elem_of_cons. intros [Hne Hn].
    destruct (decide (y = k)); [congruence|].
    rewrite IH by done.
    destruct (Z.eqb_spec (Z.of_nat (length pre)) (-1)); lia.
Qed.

(** The last filter of [eventNames] keeps the first occurrences. *)
Lemma filter_from_dedup pre seen l :
  (∀ k, k ∈ seen ↔ k ∈ pre) →
  Js.filter_from (λ v i a, bool_decide (Js.indexOf a v = Z.of_nat i))
    (pre ++ l) (length pre) l
  = dedup_first seen l.
Proof.
  revert pre seen. induction l as [|k l IH]; intros pre seen Hseen; simpl; [done|].
  assert (pre ++ k :: l = (pre ++ [k]) ++ l) as Happ by (by rewrite <- app_assoc).
  assert (S (length pre) = length (pre ++ [k])) as Hlen
    by (rewrite length_app; simpl; lia).
  destruct (decide (k ∈ seen)) as [Hin|Hnotin].
  - apply Hseen in Hin.
    rewrite bool_decide_eq_false_2.
    + rewrite Happ, Hlen. apply IH. intros k'. rewrite Hseen.
      rewrite elem_of_app, list_elem_of_singleton. intuition congruence.
    + rewrite indexOf_app_l by done.
      pose proof (indexOf_bounds pre k). lia.
  - rewrite bool_decide_eq_true_2
      by (apply indexOf_app_fresh; by rewrite <- Hseen).
    f_equal. rewrite Happ, Hlen. apply IH. intros k'.
    rewrite elem_of_cons, elem_of_app, list_elem_of_singleton, Hseen. tauto.
Qed.

Lemma elem_of_dedup_first seen l k :
  k ∈ dedup_first seen l ↔ k ∈ l ∧ k ∉ seen.
Proof.
  revert seen. induction l as [|y l IH]; intros seen; simpl.
  - rewrite elem_of_nil. tauto.
  - destruct (decide (y ∈ seen)) as [Hin|Hnotin].
    + rewrite IH, elem_of_cons. intuition congruence.
    + rewrite !elem_of_cons, IH, elem_of_cons.
      destruct (decide (k = y)); intuition congruence.
Qed.

Lemma NoDup_dedup_first seen l : NoDup (dedup_first seen l).
Proof.
  revert seen. induction l as [|y l IH]; intros seen; simpl.
  - apply NoDup_nil_2.
  - destruct (decide (y ∈ seen)); [apply IH|].
    apply NoDup_cons. split; [|apply IH].
    rewrite elem_of_dedup_first, elem_of_cons. intuition congruence.
Qed.

Lemma dedup_first_ext seen seen' l :
  (∀ k, k ∈ seen ↔ k ∈ seen') → dedup_first seen l = dedup_first seen' l.
Proof.
  revert seen seen'. induction l as [|y l IH]; intros seen seen' Hext; simpl; [done|].
  destruct (decide (y ∈ seen)) as [Hin|Hnotin], (decide (y ∈ seen')) as [Hin'|Hnotin'].
  - by apply IH.
  - by apply Hext in Hin.
  - by apply Hext in Hin'.
  - f_equal. apply IH. intros k. rewrite !elem_of_cons, Hext. done.
Qed.

Lemma dedup_first_filter s seen l :
  dedup_first (s ++ seen) l = filter (λ k, k ∉ seen) (dedup_first s l).
Proof.
  revert s. induction l as [|y l IH]; intros s; simpl; [done|].
  destruct (decide (y ∈ s)) as [Hin|Hnotin].
  - rewrite decide_True by (rewrite elem_of_app; by left). apply IH.
  - rewrite filter_cons. destruct (decide (y ∉ seen)) as [Hout|Hinseen].
    + rewrite decide_False by (rewrite elem_of_app; tauto).
      f_equal. apply (IH (y :: s)).
    + rewrite decide_True by (rewrite elem_of_app; right;
        by destruct (decide (y ∈ seen))).
      rewrite <- (IH (y :: s)). apply dedup_first_ext. intros k.
      simpl. rewrite elem_of_cons, !elem_of_app.
      destruct (decide (y ∈ seen)); [|done]. intuition congruence.
Qed.

Lemma dedup_first_app seen l1 l2 :
  dedup_first seen (l1 ++ l2) = dedup_first seen l1 ++ dedup_first (l1 ++ seen) l2.
Proof.
  revert seen. induction l1 as [|y l1 IH]; intros seen; simpl; [done|].
  destruct (decide (y ∈ seen)) as [Hin|Hnotin].
  - rewrite IH. f_equal. apply dedup_first_ext. intros k.
    rewrite elem_of_cons, !elem_of_app. intuition congruence.
  - simpl. f_equal. rewrite IH. f_equal. apply dedup_first_ext. intros k.
    rewrite elem_of_cons, !elem_of_app, elem_of_cons. tauto.
Qed.

End NamesFacts.

(** ** Facts about [removeAllListeners] *)

Section RemoveAll.

Context {listener : Type} `{EqDecision listener} {value : Type} `{Host}.

Local Abbreviation World := (@World listener value).
Local Abbreviation M := (@M listener value).

Implicit Types (w : World) (fld : field) (event k : key) (events : list key).

(** [removeAllListeners(e1, ..., en)] makes the properties of the
    given events [undefined] in both objects, creating them where the
    assignment does, and touches nothing else. *)
Lemma removeAllListeners_run events w :
  ∃ w', removeAllListeners events w = (Ret (this w'), w')
    ∧ heap w' = heap w ∧ calls w' = calls w
    ∧ maxListeners (this w') = maxListeners (this w)
    ∧ (∀ fld k,
         Js.own (field_of fld (this w')) k
         = if decide (k ∈ events) then None else Js.own (field_of fld (this w)) k)
    ∧ (∀ fld k,
         Js.has (field_of fld (this w')) k
         = Js.has (field_of fld (this w)) k
           || bool_decide (k ∈ events ∧ object_prototype k ≠ Some ProtoAccessor))
    ∧ (∀ fld, refs (field_of fld (this w')) `sublist_of` refs (field_of fld (this w))).
Proof.
  unfold removeAllListeners. simpl.
  set (loop := foldr _ (mret tt) events).
  assert (∃ w', loop w = (Ret tt, w')
    ∧ heap w' = heap w ∧ calls w' = calls w
    ∧ maxListeners (this w') = maxListeners (this w)
    ∧ (∀ fld k,
         Js.own (field_of fld (this w')) k
         = if decide (k ∈ events) then None else Js.own (field_of fld (this w)) k)
    ∧ (∀ fld k,
         Js.has (field_of fld (this w')) k
         = Js.has (field_of fld (this w)) k
           || bool_decide (k ∈ events ∧ object_prototype k ≠ Some ProtoAccessor))
    ∧ (∀ fld, refs (field_of fld (this w')) `sublist_of` refs (field_of fld (this w))))
    as (w' & Hrun & Hrest).
  { subst loop. revert w. induction events as [|e es IH]; intros w; simpl.
    - exists w. split; [done|]. split; [done|]. split; [done|]. split; [done|].
      split; [done|]. split; [|done].
      intros fld k. by rewrite orb_false_r.
    - munfold. simpl.
      destruct (IH (with_this
                  (λ em, field_put OnceListeners
                           (Js.set (field_of OnceListeners em) e None) em)
                  (with_this
                     (λ em, field_put OnListeners
                              (Js.set (field_of OnListeners em) e None) em) w)))
        as (w' & Hrun & Hheap & Hcalls & Hmax & Hown & Hhas & Hrefs).
      exists w'. split; [exact Hrun|]. split; [done|]. split; [done|].
      split; [done|]. split; [|split].
      + intros fld k. rewrite Hown.
        destruct (decide (k ∈ es)) as [Hin|Hout].
        * rewrite decide_True; [done|by apply list_elem_of_further].
        * destruct (decide (k = e)) as [->|Hne].
          -- rewrite decide_True by apply list_elem_of_here.
             destruct fld; simpl; rewrite own_set_None;
               by destruct (decide (e = e)).
          -- rewrite decide_False by (rewrite elem_of_cons; tauto).
             destruct fld; simpl; by apply own_set_ne.
      + intros fld k. rewrite Hhas.
        destruct (decide (k = e)) as [->|Hne].
        * assert (Js.has (field_of fld
                    (this (with_this
                       (λ em, field_put OnceListeners
                                (Js.set (field_of OnceListeners em) e None) em)
                       (with_this
                          (λ em, field_put OnListeners
                                   (Js.set (field_of OnListeners em) e None) em) w))))
                    e
                  = Js.has (field_of fld (this w)) e
                    || bool_decide (object_prototype e ≠ Some ProtoAccessor)) as ->
            by (destruct fld; simpl; apply has_set_eq).
          destruct (Js.has (field_of fld (this w)) e); simpl; [done|].
          destruct (decide (object_prototype e ≠ Some ProtoAccessor)) as [Hp|Hp].
          -- rewrite (bool_decide_eq_true_2 _ Hp). simpl. symmetry.
             apply bool_decide_eq_true_2. split; [apply list_elem_of_here|done].
          -- rewrite (bool_decide_eq_false_2 _ Hp). simpl.
             rewrite !bool_decide_eq_false_2; [done| |]; by intros [_ ?].
        * assert (Js.has (field_of fld
                    (this (with_this
                       (λ em, field_put OnceListeners
                                (Js.set (field_of OnceListeners em) e None) em)
                       (with_this
                          (λ em, field_put OnListeners
                                   (Js.set (field_of OnListeners em) e None) em) w))))
                    k
                  = Js.has (field_of fld (this w)) k) as ->
            by (destruct fld; simpl; by apply has_set_ne).
          f_equal. apply bool_decide_ext. rewrite elem_of_cons. intuition congruence.
      + intros fld. etrans; [apply Hrefs|].
        destruct fld; simpl; apply refs_set_None. }
  exists w'. unfold mbind, M_bind, return_this, gets. rewrite Hrun. done.
Qed.

Lemma removeAllListeners_listeners events w fld k :
  listeners_in fld k (after (removeAllListeners events) w)
  = if decide (k ∈ events) then [] else listeners_in fld k w.
Proof.
  destruct (removeAllListeners_run events w)
    as (w' & Hrun & Hheap & _ & _ & Hown & _).
  unfold after. rewrite Hrun. simpl. unfold listeners_in, elements.
  rewrite Hown, Hheap. by destruct (decide (k ∈ events)).
Qed.

(** Lookups of the other names are as before. *)
Lemma removeAllListeners_get events w fld k :
  k ∉ events →
  Js.get (field_of fld (this (after (removeAllListeners events) w))) k
  = Js.get (field_of fld (this w)) k.
Proof.
  intros Hout.
  destruct (removeAllListeners_run events w)
    as (w' & Hrun & _ & _ & _ & Hown & Hhas & _).
  unfold after. rewrite Hrun. simpl. unfold Js.get.
  rewrite Hown, Hhas, decide_False by done.
  rewrite bool_decide_eq_false_2 by (by intros [? _]).
  by rewrite orb_false_r.
Qed.

Lemma removeAllListeners_wf events w :
  wf w → wf (after (removeAllListeners events) w).
Proof.
  intros (Hnd & Hall & Hpair).
  destruct (removeAllListeners_run events w)
    as (w' & Hrun & Hheap & _ & _ & _ & Hhas & Hrefs).
  unfold after. rewrite Hrun. simpl.
  assert (refs (onListeners (this w')) ++ refs (onceListeners (this w'))
          `sublist_of` refs (onListeners (this w)) ++ refs (onceListeners (this w)))
    as Hsub.
  { apply sublist_app; [apply (Hrefs OnListeners)|apply (Hrefs OnceListeners)]. }
  split; [|split].
  - by eapply sublist_NoDup.
  - rewrite Hheap. rewrite Forall_forall in Hall |- *. intros a Ha.
    apply Hall. by eapply sublist_subseteq.
  - intros k Hk. pose proof (Hhas OnListeners k) as H1.
    pose proof (Hhas OnceListeners k) as H2. simpl in *.
    rewrite H1, H2. by rewrite (Hpair k Hk).
Qed.

End RemoveAll.

(** ** The properties of the emitter *)

Section Properties.

Context {listener : Type} `{EqDecision listener} {value : Type} `{Host}.

Local Abbreviation World := (@World listener value).
Local Abbreviation M := (@M listener value).

Variable body : listener → list value → M unit.

Implicit Types (w : World) (a b : loc) (fld : field) (event : key)
  (f g x : listener) (args : list value).

Lemma after_result {A : Type} (m : M A) w (o : outcome A) w' :
  m w = (o, w') → result m w = o ∧ after m w = w'.
Proof. intros Heq. unfold result, after. by rewrite Heq. Qed.

Lemma adder_add_with (m : adder) :
  ∃ put, adder_method (value:=value) m = add_with (adder_field m) put
         ∧ (∀ a x, put (Js.Array a) x = update_array a (adder_place m x))
         ∧ (∀ i x, put (Js.Inherited i) x = throw TypeError).
Proof. destruct m; [exists push|exists push|exists unshift|exists unshift]; done. Qed.

(** The four adding methods at once, when the lookup is direct. *)
Lemma adder_spec (m : adder) event f w :
  wf w → direct (adder_field m) event w →
  let w' := after (adder_method m event f) w in
  let l' := adder_place m f (listeners_in (adder_field m) event w) in
  result (adder_method m event f) w
  = (if (Z.of_nat (length l') >? maxListeners (this w))%Z
     then Throw (ErrorObj (leak_message (Some (length l'))))
     else Ret (this w'))
  ∧ wf w'
  ∧ listeners_in (adder_field m) event w' = l'
  ∧ (∀ fld' event', fld' ≠ adder_field m ∨ event' ≠ event →
       listeners_in fld' event' w' = listeners_in fld' event' w)
  ∧ maxListeners (this w') = maxListeners (this w)
  ∧ calls w' = calls w
  ∧ Js.has (field_of (adder_field m) (this w')) event = true
  ∧ (∀ fld' event', fld' ≠ adder_field m ∨ event' ≠ event →
       Js.get (field_of fld' (this w')) event'
       = Js.get (field_of fld' (this w)) event')
  ∧ (∀ fld' event', Js.has (field_of fld' (this w)) event' = true →
       Js.has (field_of fld' (this w')) event' = true).
Proof.
  intros Hwf Hd.
  destruct (adder_add_with m) as (put & Hm & Hput & _).
  rewrite Hm.
  destruct (add_with_spec (adder_field m) put (adder_place m) event f w Hput Hwf Hd)
    as (w' & Hrun & Hwf' & Hhere & Hframe & Hmax & Hcalls & Hrest).
  apply after_result in Hrun as [Hres Hafter].
  rewrite Hafter. simpl. rewrite Hres. done.
Qed.

(** The four adding methods on a name that the lookup finds on the
    prototype. *)
Lemma adder_inherited (m : adder) event f w i :
  Js.get (field_of (adder_field m) (this w)) event = Js.Inherited i →
  adder_method m event f w = (Throw TypeError, w).
Proof.
  intros Hget. destruct (adder_add_with m) as (put & Hm & _ & Hput).
  rewrite Hm. by eapply add_with_inherited.
Qed.

(** The four adding methods keep the store well formed, whatever
    the name. *)
Lemma wf_after_add (m : adder) event f w :
  wf w → wf (after (adder_method m event f) w).
Proof.
  intros Hwf.
  destruct (direct_or_inherited w (adder_field m) event) as [Hd|(i & Hget & _)].
  - by destruct (adder_spec m event f w Hwf Hd) as (_ & ? & _).
  - unfold after. by rewrite (adder_inherited m event f w i Hget).
Qed.

(** A direct lookup stays direct after an adding method, for every
    event and object. *)
Lemma adder_direct (m : adder) event f w fld' event' :
  wf w → direct (adder_field m) event w →
  direct fld' event' w →
  direct fld' event' (after (adder_method m event f) w).
Proof.
  intros Hwf Hd [Hhas|Hp]; [|by right].
  destruct (adder_spec m event f w Hwf Hd) as (_ & _ & _ & _ & _ & _ & _ & _ & Hmono).
  left. by apply Hmono.
Qed.

Lemma plain_direct fld event w : plain event → direct fld event w.
Proof. by right. Qed.

(** C10: the queries [eventNames()], [listenerCount(e)], [listeners(e)]
    and [getMaxListeners()] leave the registry as it was: the world
    after the call (the two objects, their arrays, the threshold and
    the record of calls) is the world before it. *)
Theorem queries_change_nothing w event :
  after eventNames w = w
  ∧ after (listenerCount event) w = w
  ∧ after (listeners event) w = w
  ∧ after getMaxListeners w = w.
Proof.
  split; [done|]. split; [done|]. split; [|done].
  unfold after, listeners. munfold. simpl.
  destruct (Js.get (onListeners (this w)) event);
    by destruct (Js.get (onceListeners (this w)) event).
Qed.





(** [eventNames()] returns the keys of the persistent object whose
    value is an array, not [undefined], followed by those of the
    one-shot object that are not among them, every name once, at its
    first occurrence: a name is listed exactly when one of the two
    objects holds an array for it. *)
Lemma eventNames_spec w :
  let A := filter (λ k, is_Some (Js.own (onListeners (this w)) k))
             (Js.keys (onListeners (this w))) in
  let B := filter (λ k, is_Some (Js.own (onceListeners (this w)) k))
             (Js.keys (onceListeners (this w))) in
  eventNames w
  = (Ret (dedup_first [] A ++ filter (λ k, k ∉ A) (dedup_first [] B)), w)
  ∧ names_of w = dedup_first [] A ++ filter (λ k, k ∉ A) (dedup_first [] B)
  ∧ NoDup (names_of w)
  ∧ (∀ k, k ∈ names_of w
          ↔ is_Some (Js.own (onListeners (this w)) k)
            ∨ is_Some (Js.own (onceListeners (this w)) k)).
Proof.
  intros A B.
  assert (names_of w = dedup_first [] A ++ filter (λ k, k ∉ A) (dedup_first [] B))
    as Hnames.
  { unfold names_of. fold (kept_keys (onListeners (this w))).
    change (kept_keys (onListeners (this w))) with A.
    change (kept_keys (onceListeners (this w))) with B.
    rewrite dedup_first_app. f_equal.
    rewrite <- (dedup_first_filter [] A). by rewrite app_nil_r. }
  split; [|split; [done|split]].
  - rewrite <- Hnames.
    unfold eventNames, gets, names_of, Js.filter_i. f_equal. f_equal.
    rewrite !defined_keys_kept.
    apply (filter_from_dedup [] []). done.
  - apply NoDup_dedup_first.
  - intros k. unfold names_of.
    rewrite elem_of_dedup_first, elem_of_app, !elem_of_kept_keys, elem_of_nil.
    tauto.
Qed.

End Properties.

(** C8: [eventNames()] returns the keys of the persistent object
    whose value is not [undefined], followed by those of the one-shot
    object that are not among them, every name once, at its first
    occurrence, so that a name is listed exactly when one of the two
    objects holds an array for it; after [on('a', _)], [on('a', _)],
    [once('a', _)] on a new emitter it returns [['a']]; and after
    [on('b', _)], [on('a', _)], [once('c', _)] and
    [removeAllListeners('a')] the persistent object still has the
    keys ['b'] and ['a'], and [eventNames()] returns [['b'; 'c']]. *)
Theorem eventNames_first_occurrences {listener value : Type} :
  (∀ (H : Host) (w : @World listener value),
     let A := filter (λ k, is_Some (Js.own (onListeners (this w)) k))
                (Js.keys (onListeners (this w))) in
     let B := filter (λ k, is_Some (Js.own (onceListeners (this w)) k))
                (Js.keys (onceListeners (this w))) in
     eventNames w
     = (Ret (dedup_first [] A ++ filter (λ k, k ∉ A) (dedup_first [] B)), w)
     ∧ NoDup (dedup_first [] A ++ filter (λ k, k ∉ A) (dedup_first [] B))
     ∧ (∀ k, k ∈ dedup_first [] A ++ filter (λ k, k ∉ A) (dedup_first [] B)
             ↔ is_Some (Js.own (onListeners (this w)) k)
               ∨ is_Some (Js.own (onceListeners (this w)) k)))
  ∧ (∀ f g h : listener,
       result eventNames
         (after (once "a" h)
            (after (on "a" g)
               (after (on "a" f) (fresh_world (value:=value)))))
       = Ret ["a"])
  ∧ Js.keys (onListeners (this Scenario.a_removed)) = ["b"; "a"]
  ∧ Js.keys (onceListeners (this Scenario.a_removed)) = ["c"; "a"]
  ∧ result (eventNames : Scenario.Run _) Scenario.a_removed = Ret ["b"; "c"].
Proof.
  split; [|split; [|split; [|split]]]; try reflexivity.
  intros H w A B.
  destruct (eventNames_spec w) as (Hrun & Hnames & Hnd & Hin).
  fold A B in Hrun, Hnames. rewrite Hnames in Hnd, Hin. done.
Qed.

(** ** The scenarios *)

Lemma wf_start : wf Scenario.start.
Proof. split; [|split]; simpl; by constructor. Qed.


Lemma quiet_quiet_body (x : string) :
  quiet (value:=string) quiet_body x.
Proof. intros args w. reflexivity. Qed.

(** Deno has no accessor on [Object.prototype]: there every
    assignment makes or changes an own property. *)
Lemma deno_no_accessor (k : key) : deno_prototype k ≠ Some ProtoAccessor.
Proof.
  unfold deno_prototype, node_prototype.
  repeat (destruct (decide _); [done|]). done.
Qed.

Lemma plain_e : plain "e".
Proof. reflexivity. Qed.

(** C1: [off('e', 'f')] after [on('e', 'f')] and [once('e', 'g')]
    changes nothing: the one-shot array exists and does not hold
    ['f'], and the method returns before it looks at the persistent
    array.  After [on('e', 'f')] and [once('e', 'f')], one call of
    [off('e', 'f')] takes the listener out of both arrays. *)
Theorem off_returns_early_or_removes_twice :
  (listeners_in OnListeners "e" Scenario.on_f_once_g = ["f"]
   ∧ listeners_in OnceListeners "e" Scenario.on_f_once_g = ["g"]
   ∧ (off "e" "f" : Scenario.Run _) Scenario.on_f_once_g
     = (Ret (this Scenario.on_f_once_g), Scenario.on_f_once_g))
  ∧ (listeners_in OnListeners "e" Scenario.on_f_once_f = ["f"]
     ∧ listeners_in OnceListeners "e" Scenario.on_f_once_f = ["f"]
     ∧ listeners_in OnListeners "e"
         (after (off "e" "f" : Scenario.Run _) Scenario.on_f_once_f) = []
     ∧ listeners_in OnceListeners "e"
         (after (off "e" "f" : Scenario.Run _) Scenario.on_f_once_f) = []).
Proof. vm_compute. repeat split. Qed.

(** C2: with the persistent array [['h']] and the one-shot array
    [['f'; 'g']], [emit('e', 'x')] calls ['h'] and ['f'] and not
    ['g'], which is left in the one-shot array: the splice made by
    [off] moves ['g'] to index 0 and the loop goes on at index 1. *)
Theorem emit_skips_after_removal :
  listeners_in OnListeners "e" Scenario.two_once = ["h"]
  ∧ listeners_in OnceListeners "e" Scenario.two_once = ["f"; "g"]
  ∧ ∃ w', Scenario.emit' "e" ["x"] Scenario.two_once = (Ret true, w')
      ∧ calls w' = [("h", ["x"]); ("f", ["x"])]
      ∧ listeners_in OnceListeners "e" w' = ["g"].
Proof.
  split; [reflexivity|]. split; [reflexivity|].
  eexists. split; [vm_compute; reflexivity|]. split; reflexivity.
Qed.

(** C4: [removeAllListeners()] without argument changes nothing: the
    rest parameter is an empty array, which is truthy, so the loop
    over no event runs.  After [on('a', 'f')] the listener is still
    counted and ['a'] is still an event name. *)
Theorem removeAllListeners_without_argument :
  (∀ w : Scenario.W,
     (removeAllListeners [] : Scenario.Run _) w = (Ret (this w), w))
  ∧ result (listenerCount "a" : Scenario.Run _)
      (after (removeAllListeners [] : Scenario.Run _) Scenario.on_a) = Ret 1
  ∧ result (eventNames : Scenario.Run _)
      (after (removeAllListeners [] : Scenario.Run _) Scenario.on_a) = Ret ["a"].
Proof. split; [|split]; reflexivity. Qed.

(** An event given to [removeAllListeners] keeps a property, with the
    value [undefined], and with it a place in the order of the keys:
    registered again later, it comes before events registered in
    between. *)
Lemma removed_event_keeps_its_place :
  result (eventNames : Scenario.Run _) Scenario.removed_first = Ret ["a"; "b"]
  ∧ result (eventNames : Scenario.Run _) Scenario.b_then_a = Ret ["b"; "a"].
Proof. split; reflexivity. Qed.

(** C6: the error of [on('foo', 'f')] over a threshold of 0 has the
    count 1 in its message and the fixed word [test] where the event
    would be named; the error for ['bar'] is the same, and so is the
    message of the three other adding methods. *)
Theorem leak_error_has_no_event :
  result (on "foo" "f" : Scenario.Run _) Scenario.strict
  = Throw (ErrorObj
      "Possible EventEmitter memory leak detected. 1 test listeners added to [EventEmitter]. Use emitter.setMaxListeners() to increase limit")
  ∧ result (on "bar" "f" : Scenario.Run _) Scenario.strict
    = result (on "foo" "f" : Scenario.Run _) Scenario.strict
  ∧ result (once "foo" "f" : Scenario.Run _) Scenario.strict
    = Throw (ErrorObj (leak_message (Some 1)))
  ∧ result (prependListener "foo" "f" : Scenario.Run _) Scenario.strict
    = Throw (ErrorObj (leak_message (Some 1)))
  ∧ result (prependOnceListener "foo" "f" : Scenario.Run _) Scenario.strict
    = Throw (ErrorObj (leak_message (Some 1))).
Proof. repeat split. Qed.







Lemma wf_on_g : wf Scenario.on_g.
Proof. apply (wf_after_add (value:=string) AddOn "e" "g"). exact wf_start. Qed.



(** ** Further facts: the store invariant and the frame of each method *)

Section FrameFacts.

Context {listener : Type} `{EqDecision listener} {value : Type} `{Host}.

Local Abbreviation World := (@World listener value).
Local Abbreviation M := (@M listener value).

Variable body : listener → list value → M unit.

Implicit Types (w : World) (a b : loc) (fld : field) (event : key)
  (f g x : listener) (args : list value).

Lemma elem_of_names_of w (k : key) :
  k ∈ names_of w
  ↔ is_Some (Js.own (onListeners (this w)) k)
    ∨ is_Some (Js.own (onceListeners (this w)) k).
Proof.
  unfold names_of.
  rewrite elem_of_dedup_first, elem_of_app, !elem_of_kept_keys, elem_of_nil.
  tauto.
Qed.

Lemma eventNames_run w : eventNames w = (Ret (names_of w), w).
Proof.
  unfold eventNames, gets, names_of, Js.filter_i. f_equal. f_equal.
  rewrite !defined_keys_kept.
  apply (filter_from_dedup [] []). done.
Qed.

(** [off] keeps the store well formed and stays within its event; it
    returns when the lookup is direct and throws otherwise. *)
Lemma off_frame event x w :
  wf w →
  ∃ o w', off event x w = (o, w')
    ∧ (direct OnceListeners event w → o = Ret (this w'))
    ∧ (¬ direct OnceListeners event w → o = Throw TypeError ∧ w' = w)
    ∧ this w' = this w ∧ calls w' = calls w ∧ wf w'
    ∧ (∀ a, elements w' a ⊆ elements w a)
    ∧ (∀ fld' event', event' ≠ event →
         listeners_in fld' event' w' = listeners_in fld' event' w).
Proof.
  intros Hwf.
  destruct (direct_or_inherited w OnceListeners event) as [Hd|(i & Hget & Hhas & Hi)].
  - pose proof (direct_both w _ OnListeners event Hwf Hd) as Hd'.
    destruct (off_shrinks event x w Hd' Hd) as (w' & Hrun & Hthis & Hcalls & Hsub).
    exists (Ret (this w')), w'. split; [done|]. split; [done|].
    split; [done|]. split; [done|]. split; [done|].
    destruct (Js.own (onceListeners (this w)) event) as [b|] eqn:Hown.
    + destruct (decide (x ∈ listeners_in OnceListeners event w)) as [Hin|Hout].
      * destruct (off_removes event x w Hwf Hd (or_intror Hin))
          as (w2 & Hrun2 & _ & _ & Hwf2 & _ & _ & Hframe).
        rewrite Hrun in Hrun2. injection Hrun2 as _ <-. done.
      * rewrite off_early_return in Hrun by (by rewrite ?Hown).
        injection Hrun as _ <-. done.
    + destruct (off_removes event x w Hwf Hd (or_introl Hown))
        as (w2 & Hrun2 & _ & _ & Hwf2 & _ & _ & Hframe).
      rewrite Hrun in Hrun2. injection Hrun2 as _ <-. done.
  - exists (Throw TypeError), w. simpl in *.
    rewrite (off_inherited event x w i Hget).
    split; [done|]. split.
    { intros [Hh|Hp]; simpl in *; [congruence|].
      unfold plain in Hp. congruence. }
    done.
Qed.

(** The loop of [emit] over the one-shot array, with quiet listeners:
    the store stays well formed and the other events are left
    alone. *)
Lemma once_loop_frame event args b n k w :
  wf w → direct OnceListeners event w →
  (∀ x, x ∈ elements w b → quiet body x) →
  ∃ w', forEach_from b (call_once body event args) k n w = (Ret tt, w')
    ∧ this w' = this w ∧ wf w'
    ∧ (∀ fld' event', event' ≠ event →
         listeners_in fld' event' w' = listeners_in fld' event' w).
Proof.
  revert k w. induction n as [|n IH]; intros k w Hwf Hd Hq; simpl.
  - by exists w.
  - destruct (elements w b !! k) as [x|] eqn:Hk; [|by apply IH].
    assert (x ∈ elements w b) as Hx by (by eapply list_elem_of_lookup_2).
    unfold mbind, M_bind. unfold call_once at 1. unfold mbind, M_bind.
    rewrite call_quiet by (by apply Hq).
    set (w0 := with_calls _ w).
    destruct (off_frame event x w0) as
      (o & w1 & Hrun & Hret & _ & Hthis & _ & Hwf1 & Hsub & Hframe);
      [by apply wf_with_calls|].
    rewrite Hrun, (Hret Hd). unfold mret, M_ret.
    destruct (IH (S k) w1 Hwf1) as (w' & Hloop & Hthis' & Hwf' & Hframe').
    { eapply direct_this; [|exact Hd]. by rewrite Hthis. }
    { intros y Hy. apply Hq. by apply Hsub in Hy. }
    exists w'. split; [done|]. split; [by rewrite Hthis', Hthis|].
    split; [done|].
    intros fld' event' Hne. rewrite Hframe' by done. by rewrite Hframe.
Qed.

(** [emit] with quiet listeners keeps the emitter record and the
    well-formed store, and leaves the other events alone; when the
    lookup is direct it returns whether there is a persistent
    listener. *)
Lemma emit_frame event args w :
  wf w →
  (∀ x, x ∈ listeners_in OnListeners event w → quiet body x) →
  (∀ x, x ∈ listeners_in OnceListeners event w → quiet body x) →
  ∃ o w', emit body event args w = (o, w')
    ∧ (direct OnListeners event w
       → o = Ret (bool_decide (listeners_in OnListeners event w ≠ [])))
    ∧ this w' = this w ∧ wf w'
    ∧ (∀ fld' event', event' ≠ event →
         listeners_in fld' event' w' = listeners_in fld' event' w).
Proof.
  intros Hwf Hq1 Hq2.
  destruct (direct_or_inherited w OnListeners event) as [Hd|(i & Hget & Hhas & Hi)].
  2:{ simpl in *. rewrite (emit_inherited body event args w i Hget).
      eexists _, w. split; [reflexivity|]. split; [|done].
      intros [Hh|Hp]; simpl in *; [congruence|].
      unfold plain in Hp. congruence. }
  pose proof (direct_both w _ OnceListeners event Hwf Hd) as Hd'.
  destruct (decide (listeners_in OnListeners event w = [])) as [Hnil|Hne].
  { exists (Ret false), w. rewrite emit_none by done.
    by rewrite bool_decide_eq_false_2 by (by intros []). }
  rewrite bool_decide_eq_true_2 by done.
  unfold emit, mbind, M_bind.
  rewrite none_registered_run by done. rewrite bool_decide_eq_false_2 by done.
  unfold read at 1. unfold gets at 1.
  rewrite forEach_quiet by done.
  rewrite none_registered_run, listeners_in_with_calls by done.
  destruct (decide (listeners_in OnceListeners event w = [])) as [Hnil|Hsome].
  { rewrite bool_decide_eq_true_2 by done. eexists _, _.
    split; [reflexivity|]. done. }
  rewrite bool_decide_eq_false_2 by done.
  unfold read, gets. simpl.
  destruct (Js.own (onceListeners (this w)) event) as [b|] eqn:Hown;
    [|unfold listeners_in in Hsome; simpl in Hsome; by rewrite Hown in Hsome].
  rewrite (listeners_in_Some OnceListeners event w b Hown) in Hq2.
  pose proof (get_own_Some w OnceListeners event b Hown) as Hget.
  simpl in Hget. rewrite Hget.
  simpl. set (w0 := with_calls _ w).
  destruct (once_loop_frame event args b (length (elements w0 b)) 0 w0)
    as (w' & Hloop & Hthis & Hwf' & Hframe); [by apply wf_with_calls|done|done|].
  rewrite Hloop. by exists (Ret true), w'.
Qed.

End FrameFacts.

Section SequenceFacts.

Context {listener : Type} `{EqDecision listener} {value : Type} `{Host}.

Local Abbreviation World := (@World listener value).
Local Abbreviation M := (@M listener value).

Variable body : listener → list value → M unit.

Implicit Types (w : World) (a b : loc) (fld : field) (event : key)
  (f g x : listener) (args : list value).

(** The part of [forEach] before a listener that throws: the quiet
    listeners in front of it are called, then the throw ends the
    loop with the world the thrower left. *)
Lemma forEach_from_throw a args (pre post : list listener) f n k w
    (t : thrown) w1 :
  drop k (elements w a) = pre ++ f :: post →
  (∀ x, x ∈ pre → quiet body x) →
  length pre < n →
  body f args (with_calls (λ c, c ++ invoked args pre ++ [(f, args)]) w)
  = (Throw t, w1) →
  forEach_from a (λ l, call body l args) k n w = (Throw t, w1).
Proof.
  revert n k w. induction pre as [|y pre IH]; intros n k w Hdrop Hq Hn Hbody.
  - destruct n as [|n]; [simpl in Hn; lia|]. simpl.
    assert (elements w a !! k = Some f) as Hk.
    { rewrite <- (Nat.add_0_r k), <- lookup_drop, Hdrop. done. }
    rewrite Hk. unfold mbind, M_bind, call. unfold mbind, M_bind, modify.
    simpl in Hbody. by rewrite Hbody.
  - destruct n as [|n]; [simpl in Hn; lia|]. simpl.
    assert (elements w a !! k = Some y) as Hk.
    { rewrite <- (Nat.add_0_r k), <- lookup_drop, Hdrop. done. }
    rewrite Hk. unfold mbind, M_bind.
    rewrite call_quiet by (apply Hq; apply list_elem_of_here).
    apply IH.
    + change (elements (with_calls _ w) a) with (elements w a).
      rewrite (drop_S _ _ _ Hk) in Hdrop. by injection Hdrop.
    + intros x Hx. apply Hq. by apply list_elem_of_further.
    + simpl in Hn. lia.
    + rewrite with_calls_app. exact Hbody.
Qed.

(** Adding with [push] keeps the order of the calls, adding with
    [unshift] reverses it. *)
Lemma add_all_spec (m : adder) event (fs : list listener) w :
  wf w → direct (adder_field m) event w →
  wf (add_all m event fs w)
  ∧ listeners_in (adder_field m) event (add_all m event fs w)
    = foldl (λ l f, adder_place m f l) (listeners_in (adder_field m) event w) fs
  ∧ (∀ fld' event', fld' ≠ adder_field m ∨ event' ≠ event →
       listeners_in fld' event' (add_all m event fs w)
       = listeners_in fld' event' w)
  ∧ maxListeners (this (add_all m event fs w)) = maxListeners (this w)
  ∧ calls (add_all m event fs w) = calls w
  ∧ (∀ fld' event', direct fld' event' w →
       direct fld' event' (add_all m event fs w)).
Proof.
  revert w. induction fs as [|f fs IH]; intros w Hwf Hd; simpl; [done|].
  destruct (adder_spec m event f w Hwf Hd)
    as (_ & Hwf1 & Hhere & Hframe & Hmax & Hcalls & _).
  pose proof (λ fld' event', adder_direct m event f w fld' event' Hwf Hd) as Hdir.
  destruct (IH _ Hwf1 (Hdir _ _ Hd))
    as (Hwf' & Hhere' & Hframe' & Hmax' & Hcalls' & Hdir').
  unfold add_all in *. simpl.
  split; [done|]. split; [by rewrite Hhere', Hhere|].
  split; [|split; [by rewrite Hmax'|split; [by rewrite Hcalls'|]]].
  - intros fld' event' Hor. rewrite Hframe' by done. by apply Hframe.
  - intros fld' event' Hd0. by apply Hdir', Hdir.
Qed.

Lemma foldl_at_end (l fs : list listener) :
  foldl (λ l f, at_end f l) l fs = l ++ fs.
Proof.
  revert l. induction fs as [|f fs IH]; intros l; simpl.
  - by rewrite app_nil_r.
  - rewrite IH. unfold at_end. by rewrite <- app_assoc.
Qed.

Lemma foldl_at_front (l fs : list listener) :
  foldl (λ l f, at_front f l) l fs = reverse fs ++ l.
Proof.
  revert l. induction fs as [|f fs IH]; intros l; simpl; [done|].
  rewrite IH, reverse_cons. unfold at_front. by rewrite <- app_assoc.
Qed.

End SequenceFacts.

(** ** Further properties of the emitter *)

Section MoreProperties.

Context {listener : Type} `{EqDecision listener} {value : Type} `{Host}.

Local Abbreviation World := (@World listener value).
Local Abbreviation M := (@M listener value).

Variable body : listener → list value → M unit.

Implicit Types (w : World) (a b : loc) (fld : field) (event : key)
  (f g x : listener) (args : list value).

Lemma wf_fresh_world_at (d : Z) :
  wf (fresh_world_at (listener:=listener) (value:=value) d).
Proof. split; [|split]; simpl; by constructor. Qed.

Lemma wf_fresh_world : wf (fresh_world (listener:=listener) (value:=value)).
Proof. apply wf_fresh_world_at. Qed.

Lemma setMaxListeners_run (n : Z) w :
  setMaxListeners n w
  = (Ret (mkEmitter (onListeners (this w)) (onceListeners (this w)) n),
     mkWorld (heap w)
       (mkEmitter (onListeners (this w)) (onceListeners (this w)) n) (calls w)).
Proof. done. Qed.

Lemma off_run event x w :
  wf w →
  ∃ o w', off event x w = (o, w')
    ∧ this w' = this w ∧ wf w'
    ∧ (∀ fld' event', event' ≠ event →
         listeners_in fld' event' w' = listeners_in fld' event' w).
Proof.
  intros Hwf.
  destruct (off_frame event x w Hwf)
    as (o & w' & Hrun & _ & _ & Hthis & _ & Hwf' & _ & Hframe).
  by exists o, w'.
Qed.

(** X1: every array that the two objects hold is in the store, no
    two properties hold the same array, and a name of
    [Object.prototype] is a property of both objects or of none.
    This is so for a new emitter and every method keeps it: the four
    adding methods, [off], [removeAllListeners], [setMaxListeners],
    and [emit] when the listeners of the event are quiet. *)
Theorem store_stays_well_formed w :
  wf (fresh_world (listener:=listener) (value:=value))
  ∧ (wf w →
     (∀ (m : adder) event f, wf (after (adder_method m event f) w))
     ∧ (∀ event f, wf (after (off event f) w))
     ∧ (∀ events, wf (after (removeAllListeners events) w))
     ∧ (∀ n, wf (after (setMaxListeners n) w))
     ∧ (∀ event args,
          (∀ x, x ∈ listeners_in OnListeners event w → quiet body x) →
          (∀ x, x ∈ listeners_in OnceListeners event w → quiet body x) →
          wf (after (emit body event args) w))).
Proof.
  split; [apply wf_fresh_world|]. intros Hwf.
  split; [intros; by apply wf_after_add|].
  split; [|split; [|split]].
  - intros event f.
    destruct (off_run event f w Hwf) as (o & w' & Hrun & _ & Hwf' & _).
    unfold after. by rewrite Hrun.
  - intros events. by apply removeAllListeners_wf.
  - intros n. exact Hwf.
  - intros event args Hq1 Hq2.
    destruct (emit_frame body event args w Hwf Hq1 Hq2)
      as (o & w' & Hrun & _ & _ & Hwf' & _).
    unfold after. by rewrite Hrun.
Qed.

(** X2: a method called for one event leaves the listeners of every
    other event as they were: [listeners(e')] and [listenerCount(e')]
    give the same after an adding method, [off],
    [removeAllListeners] or (with quiet listeners) [emit] for [e]. *)
Theorem other_events_untouched event event' w :
  wf w → event' ≠ event →
  (∀ (m : adder) f, same_listeners event' w (after (adder_method m event f) w))
  ∧ (∀ f, same_listeners event' w (after (off event f) w))
  ∧ same_listeners event' w (after (removeAllListeners [event]) w)
  ∧ (∀ args,
       (∀ x, x ∈ listeners_in OnListeners event w → quiet body x) →
       (∀ x, x ∈ listeners_in OnceListeners event w → quiet body x) →
       same_listeners event' w (after (emit body event args) w)).
Proof.
  intros Hwf Hne. split; [|split; [|split]].
  - intros m f.
    destruct (direct_or_inherited w (adder_field m) event) as [Hd|(i & Hget & _)].
    + destruct (adder_spec m event f w Hwf Hd)
        as (_ & _ & _ & Hframe & _ & _ & _ & Hgets & _).
      apply same_listeners_intro; intros fld;
        [apply Hgets | apply Hframe]; by right.
    + unfold after. rewrite (adder_inherited m event f w i Hget).
      apply same_listeners_refl.
  - intros f.
    destruct (off_run event f w Hwf) as (o & w' & Hrun & Hthis & _ & Hframe).
    unfold after. rewrite Hrun. simpl.
    apply same_listeners_intro; intros fld; [by rewrite Hthis | by apply Hframe].
  - apply same_listeners_intro; intros fld.
    + apply removeAllListeners_get. rewrite list_elem_of_singleton. done.
    + rewrite removeAllListeners_listeners.
      rewrite decide_False; [done|]. rewrite list_elem_of_singleton. done.
  - intros args Hq1 Hq2.
    destruct (emit_frame body event args w Hwf Hq1 Hq2)
      as (o & w' & Hrun & _ & Hthis & _ & Hframe).
    unfold after. rewrite Hrun. simpl.
    apply same_listeners_intro; intros fld; [by rewrite Hthis | by apply Hframe].
Qed.

(** X3: for an event name that [Object.prototype] has nothing for, on
    a registry where [e] has no listener, after [on(e, f)] with [f]
    quiet, [emit(e, args)] returns [true] and calls [f] once with
    [args]; it changes nothing but the record of calls, so every
    later [emit(e, ...)] calls [f] again. *)
Theorem on_then_emit event f args w :
  plain event →
  wf w →
  listeners_in OnListeners event w = [] →
  listeners_in OnceListeners event w = [] →
  quiet body f →
  let w1 := after (on event f) w in
  calls w1 = calls w
  ∧ emit body event args w1
    = (Ret true, with_calls (λ c, c ++ [(f, args)]) w1)
  ∧ ∀ args',
      emit body event args' (with_calls (λ c, c ++ [(f, args)]) w1)
      = (Ret true,
         with_calls (λ c, c ++ [(f, args')])
           (with_calls (λ c, c ++ [(f, args)]) w1)).
Proof.
  intros Hp Hwf Hon Honce Hq. cbv zeta.
  destruct (adder_spec AddOn event f w Hwf (plain_direct _ _ _ Hp))
    as (_ & Hwf1 & Hhere & Hframe & _ & Hcalls & _). simpl in *.
  set (w1 := after (on event f) w) in *.
  rewrite Hon in Hhere. unfold at_end in Hhere. simpl in Hhere.
  assert (listeners_in OnceListeners event w1 = []) as Honce1
    by (rewrite Hframe by (by left); done).
  assert (∀ x, x ∈ [f] → quiet body x) as Hqs.
  { intros x Hx. apply list_elem_of_singleton in Hx. by subst. }
  split; [done|]. split.
  - rewrite emit_once_empty by (rewrite ?Hhere; done || by right).
    by rewrite Hhere.
  - intros args'.
    rewrite emit_once_empty
      by (rewrite ?listeners_in_with_calls, ?Hhere; done || by right).
    by rewrite listeners_in_with_calls, Hhere.
Qed.

(** After an adding method of the persistent array and [off], for an
    event without one-shot array. *)
Lemma add_off_listeners (m : adder) event f w :
  plain event →
  wf w →
  Js.own (onceListeners (this w)) event = None →
  adder_field m = OnListeners →
  ∀ fld event',
    listeners_in fld event' (after (off event f) (after (adder_method m event f) w))
    = if decide (fld = OnListeners ∧ event' = event)
      then remove_first f (adder_place m f (listeners_in OnListeners event w))
      else listeners_in fld event' w.
Proof.
  intros Hp Hwf Hnone Hfld fld event'.
  destruct (adder_spec m event f w Hwf (plain_direct _ _ _ Hp))
    as (_ & Hwf1 & Hhere & Hframe & _ & _).
  set (w1 := after (adder_method m event f) w) in *.
  rewrite Hfld in Hhere, Hframe.
  assert (Js.own (onceListeners (this w1)) event = None) as Hnone1.
  { unfold w1.
    assert (∃ put ins, adder_method (value:=value) m = add_with OnListeners put
              ∧ ∀ a x, put (Js.Array a) x = update_array a (ins x))
      as (put & ins & -> & Hput).
    { destruct m; try done; [exists push, at_end|exists unshift, at_front]; done. }
    rewrite (add_with_this _ _ ins) by (done || by right). simpl.
    by destruct (Js.own (onListeners (this w)) event). }
  destruct (off_removes event f w1 Hwf1 (plain_direct _ _ _ Hp) (or_introl Hnone1))
    as (w2 & Hrun & _ & _ & _ & Honce2 & Hon2 & Hframe2).
  unfold after at 1. rewrite Hrun. simpl.
  destruct (decide (event' = event)) as [->|Hne].
  - destruct fld.
    + rewrite decide_True by done. by rewrite Hon2, Hhere.
    + rewrite decide_False by (intros [? _]; done).
      rewrite Honce2, Hframe by (by left).
      unfold listeners_in. simpl. by rewrite Hnone.
  - rewrite decide_False by (intros [_ ?]; done).
    rewrite Hframe2 by done. apply Hframe. by right.
Qed.

(** X4: for an event name that [Object.prototype] has nothing for,
    when [e] has no one-shot array, removing a listener right after
    adding it gives back the listeners of every event:
    [removeListener(e, f)] after [addListener(e, f)] if [f] was not
    registered for [e] before, and [off(e, f)] after
    [prependListener(e, f)] in any case.  If [e] had no listener,
    [emit(e)] after [addListener] and [removeListener] returns
    [false] and calls nothing. *)
Theorem add_then_off_restores event f w :
  plain event →
  wf w →
  Js.own (onceListeners (this w)) event = None →
  (f ∉ listeners_in OnListeners event w →
   ∀ fld event',
     listeners_in fld event'
       (after (removeListener event f) (after (addListener event f) w))
     = listeners_in fld event' w)
  ∧ (∀ fld event',
       listeners_in fld event'
         (after (off event f) (after (prependListener event f) w))
       = listeners_in fld event' w)
  ∧ (listeners_in OnListeners event w = [] →
     ∀ args,
       let w2 := after (removeListener event f) (after (addListener event f) w) in
       emit body event args w2 = (Ret false, w2)).
Proof.
  intros Hp Hwf Hnone. split; [|split]; cycle 2.
  { intros Hnil args. cbv zeta. apply emit_none; [by right|].
    unfold removeListener, addListener.
    rewrite (add_off_listeners AddOn event f w Hp Hwf Hnone eq_refl).
    rewrite decide_True by done. rewrite Hnil. simpl. unfold at_end. simpl.
    by destruct (decide (f = f)). }
  - intros Hnotin fld event'.
    rewrite (add_off_listeners AddOn event f w Hp Hwf Hnone eq_refl).
    destruct (decide _) as [[-> ->]|]; [|done]. simpl. unfold at_end.
    rewrite <- (app_nil_r (listeners_in OnListeners event w)) at 2.
    by apply remove_first_middle.
  - intros fld event'.
    rewrite (add_off_listeners AddPrepend event f w Hp Hwf Hnone eq_refl).
    destruct (decide _) as [[-> ->]|]; [|done]. simpl. unfold at_front. simpl.
    by destruct (decide (f = f)).
Qed.

(** X5: for an event name that [Object.prototype] has nothing for,
    [listenerCount(e)] is the length of [listeners(e)], and
    [listeners(e)] is the persistent entries followed by the one-shot
    entries. *)
Theorem listenerCount_is_length_of_listeners event w :
  plain event →
  listeners event w
  = (Ret (Listener <$> (listeners_in OnListeners event w
                        ++ listeners_in OnceListeners event w)), w)
  ∧ ∃ l, result (listeners event) w = Ret l
       ∧ result (listenerCount event) w = Ret (length l).
Proof.
  intros Hp.
  split; [apply listeners_direct; by right|].
  unfold result. rewrite listeners_direct, listenerCount_direct by (by right).
  simpl. eexists. split; [reflexivity|]. by rewrite length_fmap, length_app.
Qed.

(** X6: for an event name that [Object.prototype] has nothing for and
    that was never registered (neither object holds an array for
    it), [listeners] is empty, [listenerCount] is 0, the event is not
    among [eventNames()], and [off] and [emit] change nothing, [emit]
    returning [false]; no method throws. *)
Theorem unknown_event event w :
  plain event →
  Js.own (onListeners (this w)) event = None →
  Js.own (onceListeners (this w)) event = None →
  listeners event w = (Ret [], w)
  ∧ listenerCount event w = (Ret 0, w)
  ∧ (∃ names, eventNames w = (Ret names, w) ∧ event ∉ names)
  ∧ (∀ f, off event f w = (Ret (this w), w))
  ∧ (∀ args, emit body event args w = (Ret false, w)).
Proof.
  intros Hp Hon Honce.
  assert (∀ fld, listeners_in fld event w = []) as Hnil.
  { intros fld. unfold listeners_in. by destruct fld; simpl; rewrite ?Hon, ?Honce. }
  assert (∀ fld, Js.get (field_of fld (this w)) event = Js.Undefined) as Hget.
  { intros fld. rewrite get_own by (by right).
    by destruct fld; simpl; rewrite ?Hon, ?Honce. }
  split; [by rewrite listeners_direct, !Hnil by (by right)|].
  split; [by rewrite listenerCount_direct, !Hnil by (by right)|].
  split; [|split].
  - exists (names_of w). split; [apply eventNames_run|].
    rewrite elem_of_names_of, Hon, Honce. by intros [[? ?]|[? ?]].
  - intros f. pose proof (Hget OnListeners) as H1.
    pose proof (Hget OnceListeners) as H2. simpl in *.
    unfold off, off_persistent. munfold. simpl.
    rewrite H2. simpl. by rewrite H1.
  - intros args. apply emit_none; [by right|done].
Qed.

(** X7: [removeAllListeners(e1, ..., en)] returns the emitter.  When
    none of the names is one that [Object.prototype] has an accessor
    for, it leaves the given events without listeners: their
    [listeners] is empty, their [listenerCount] is 0 and [emit] for
    them returns [false].  In any case they are no longer among
    [eventNames()], and the other events, the other names, the
    threshold and the record of calls stay. *)
Theorem removeAllListeners_given_events (events : list key) w :
  let w' := after (removeAllListeners events) w in
  result (removeAllListeners events) w = Ret (this w')
  ∧ maxListeners (this w') = maxListeners (this w)
  ∧ calls w' = calls w
  ∧ (∀ k, k ∈ events → object_prototype k ≠ Some ProtoAccessor →
       listeners k w' = (Ret [], w')
       ∧ listenerCount k w' = (Ret 0, w')
       ∧ ∀ args, emit body k args w' = (Ret false, w'))
  ∧ (∀ k, k ∉ events → same_listeners k w w')
  ∧ (∃ names names',
       result eventNames w = Ret names
       ∧ result eventNames w' = Ret names'
       ∧ ∀ k, k ∈ names' ↔ k ∈ names ∧ k ∉ events).
Proof.
  cbv zeta.
  destruct (removeAllListeners_run events w)
    as (w' & Hrun & Hheap & Hcalls & Hmax & Hown & Hhas & _).
  assert (after (removeAllListeners events) w = w') as Hafter
    by (unfold after; by rewrite Hrun).
  rewrite Hafter. unfold result at 1. rewrite Hrun. simpl.
  split; [done|]. split; [done|]. split; [done|].
  split; [|split].
  - intros k Hk Hacc.
    assert (∀ fld, listeners_in fld k w' = []) as Hnil.
    { intros fld. rewrite <- Hafter, removeAllListeners_listeners.
      by rewrite decide_True. }
    assert (∀ fld, direct fld k w') as Hd.
    { intros fld. left. rewrite Hhas.
      rewrite (bool_decide_eq_true_2 _ (conj Hk Hacc)). apply orb_true_r. }
    split; [by rewrite listeners_direct, !Hnil|].
    split; [by rewrite listenerCount_direct, !Hnil|].
    intros args. by apply emit_none.
  - intros k Hk. apply same_listeners_intro; intros fld; rewrite <- Hafter.
    + by apply removeAllListeners_get.
    + rewrite removeAllListeners_listeners. by rewrite decide_False.
  - exists (names_of w), (names_of w'). unfold result.
    rewrite !eventNames_run. split; [done|]. split; [done|].
    intros k. rewrite !elem_of_names_of.
    pose proof (Hown OnListeners k) as H1. pose proof (Hown OnceListeners k) as H2.
    simpl in H1, H2. rewrite H1, H2.
    destruct (decide (k ∈ events)); [|tauto].
    split; [intros [[? ?]|[? ?]]; done | tauto].
Qed.

(** [off] never changes the two objects, only arrays. *)
Lemma off_this event x w : this (after (off event x) w) = this w.
Proof.
  assert (∀ w0, this (after (off_persistent event x) w0) = this w0) as Hpers.
  { intros w0. unfold after, off_persistent. munfold. simpl.
    destruct (Js.get (onListeners (this w0)) event) as [|a|i] eqn:Hg; simpl;
      try done.
    destruct (_ =? _)%Z; [done|]. rewrite Hg. done. }
  unfold after, off. munfold. simpl.
  destruct (Js.get (onceListeners (this w)) event) as [|b|i] eqn:Hg; simpl;
    try done.
  - apply Hpers.
  - destruct (_ =? _)%Z; [done|]. rewrite Hg. simpl. munfold. simpl.
    match goal with
    | |- this (off_persistent event x ?w0).2 = _ => exact (Hpers w0)
    end.
Qed.

(** After an adding method the event has an array, when the lookup
    was direct. *)
Lemma adder_own (m : adder) event f w :
  wf w → direct (adder_field m) event w →
  is_Some (Js.own (field_of (adder_field m)
                     (this (after (adder_method m event f) w))) event).
Proof.
  intros Hwf Hd.
  destruct (adder_add_with (listener:=listener) (value:=value) m)
    as (put & Hm & Hput & _). rewrite Hm.
  rewrite (add_with_this _ _ (adder_place m)) by done.
  destruct (Js.own (field_of (adder_field m) (this w)) event) as [a|] eqn:Hown.
  - rewrite Hown. by eexists.
  - rewrite field_of_put, own_set_eq; [by eexists|].
    destruct Hd as [|Hp]; [by left|right]. unfold plain in Hp. by rewrite Hp.
Qed.

(** X8: [eventNames()] lists exactly the events for which one of the
    two objects holds an array, empty or not.  [off] and (with quiet
    listeners) [emit] never change the list.  For an event name that
    [Object.prototype] has nothing for, the event is listed after any
    adding method, also one that threw, and an event whose only
    listener was removed by [off] is still listed, with a
    [listenerCount] of 0. *)
Theorem eventNames_lists_events_with_an_array w :
  (∃ names, eventNames w = (Ret names, w)
     ∧ ∀ k, k ∈ names
            ↔ is_Some (Js.own (onListeners (this w)) k)
              ∨ is_Some (Js.own (onceListeners (this w)) k))
  ∧ (∀ event f, result eventNames (after (off event f) w) = result eventNames w)
  ∧ (wf w →
     ∀ event args,
       (∀ x, x ∈ listeners_in OnListeners event w → quiet body x) →
       (∀ x, x ∈ listeners_in OnceListeners event w → quiet body x) →
       result eventNames (after (emit body event args) w) = result eventNames w)
  ∧ (wf w →
     ∀ (m : adder) event f,
       plain event →
       ∃ names,
         result eventNames (after (adder_method m event f) w) = Ret names
         ∧ event ∈ names)
  ∧ (wf w →
     ∀ event f,
       plain event →
       listeners_in OnListeners event w = [] →
       Js.own (onceListeners (this w)) event = None →
       let w2 := after (off event f) (after (on event f) w) in
       result (listenerCount event) w2 = Ret 0
       ∧ ∃ names, result eventNames w2 = Ret names ∧ event ∈ names).
Proof.
  assert (∀ w1 w2 : World, this w2 = this w1 →
            result eventNames w2 = result eventNames w1) as Hsame.
  { intros w1 w2 Hthis. unfold result. rewrite !eventNames_run. simpl.
    unfold names_of. by rewrite Hthis. }
  assert (wf w → ∀ (m : adder) event f, plain event →
            event ∈ names_of (after (adder_method m event f) w)) as Hadd.
  { intros Hwf m event f Hp. rewrite elem_of_names_of.
    pose proof (adder_own m event f w Hwf (plain_direct _ _ _ Hp)) as Hown.
    destruct m; simpl in *; auto. }
  split; [|split; [|split; [|split]]].
  - exists (names_of w). split; [apply eventNames_run|].
    apply elem_of_names_of.
  - intros event f. apply Hsame, off_this.
  - intros Hwf event args Hq1 Hq2. apply Hsame.
    destruct (emit_frame body event args w Hwf Hq1 Hq2)
      as (o & w' & Hrun & _ & Hthis & _).
    unfold after. by rewrite Hrun.
  - intros Hwf m event f Hp. exists (names_of (after (adder_method m event f) w)).
    unfold result. rewrite eventNames_run. split; [done|]. by apply Hadd.
  - intros Hwf event f Hp Hnil Hnone. cbv zeta. split.
    + unfold result. rewrite listenerCount_direct by (by right). simpl.
      rewrite !(add_off_listeners AddOn event f w Hp Hwf Hnone eq_refl).
      rewrite decide_True by done.
      rewrite decide_False by (intros [? _]; done).
      rewrite Hnil. simpl. unfold at_end. simpl.
      destruct (decide (f = f)); [|done]. simpl.
      unfold listeners_in. simpl. by rewrite Hnone.
    + exists (names_of (after (off event f) (after (on event f) w))).
      unfold result. rewrite eventNames_run. split; [done|].
      unfold names_of. rewrite off_this. apply (Hadd Hwf AddOn). done.
Qed.

(** X9: for an event name that [Object.prototype] has nothing for,
    listeners added one after the other with [on] or [once] stand in
    the order of the calls behind those that were there, with
    [prependListener] or [prependOnceListener] in the reverse order
    in front of them; [listenerCount] grows by their number; and on
    an event without listener, [emit] calls quiet listeners added
    with [on] in the order of the calls. *)
Theorem adding_keeps_call_order (m : adder) event (fs : list listener) w :
  plain event →
  wf w →
  let w' := add_all m event fs w in
  let l := listeners_in (adder_field m) event w in
  listeners_in (adder_field m) event w'
  = match m with
    | AddOn | AddOnce => l ++ fs
    | AddPrepend | AddPrependOnce => reverse fs ++ l
    end
  ∧ (∃ c, result (listenerCount event) w = Ret c
        ∧ result (listenerCount event) w' = Ret (c + length fs))
  ∧ (m = AddOn → fs ≠ [] →
     listeners_in OnListeners event w = [] →
     listeners_in OnceListeners event w = [] →
     (∀ x, x ∈ fs → quiet body x) →
     ∀ args,
       emit body event args w'
       = (Ret true, with_calls (λ c, c ++ invoked args fs) w')).
Proof.
  intros Hp Hwf. cbv zeta.
  destruct (add_all_spec m event fs w Hwf (plain_direct _ _ _ Hp))
    as (Hwf' & Hhere & Hframe & _ & _).
  assert (listeners_in (adder_field m) event (add_all m event fs w)
          = match m with
            | AddOn | AddOnce => listeners_in (adder_field m) event w ++ fs
            | AddPrepend | AddPrependOnce =>
                reverse fs ++ listeners_in (adder_field m) event w
            end) as Horder.
  { rewrite Hhere. destruct m; simpl;
      [apply foldl_at_end|apply foldl_at_end
      |apply foldl_at_front|apply foldl_at_front]. }
  split; [exact Horder|]. split.
  - unfold result. rewrite !listenerCount_direct by (by right). simpl.
    eexists. split; [reflexivity|]. f_equal.
    assert (length (listeners_in (adder_field m) event (add_all m event fs w))
            = length (listeners_in (adder_field m) event w) + length fs) as Hlen.
    { rewrite Horder. destruct m; rewrite length_app, ?length_reverse; lia. }
    destruct m; simpl in *.
    + rewrite Hlen, (Hframe OnceListeners event) by (by left). lia.
    + rewrite Hlen, (Hframe OnListeners event) by (by left). lia.
    + rewrite Hlen, (Hframe OnceListeners event) by (by left). lia.
    + rewrite Hlen, (Hframe OnListeners event) by (by left). lia.
  - intros -> Hne Hon Honce Hq args. simpl in *.
    rewrite Hon in Horder. simpl in Horder.
    rewrite emit_once_empty.
    + by rewrite Horder.
    + by right.
    + by right.
    + rewrite Horder. done.
    + rewrite Horder. exact Hq.
    + rewrite Hframe by (by left). exact Honce.
Qed.

(** X10: an emitter made while the static [defaultMaxListeners] holds
    [d] has the threshold [d].  For an event name that
    [Object.prototype] has nothing for, after any number of
    [on(e, _)], one more [on(e, f)] returns the emitter as long as
    [e] then has at most [d] persistent listeners, and throws the
    leak error with the new count as soon as it has more. *)
Theorem listener_over_threshold_throws (d : Z) event (fs : list listener) f :
  plain event →
  let w0 : World := add_all AddOn event fs (fresh_world_at d) in
  getMaxListeners w0 = (Ret d, w0)
  ∧ result (on event f) w0
    = (if (d <? Z.of_nat (S (length fs)))%Z
       then Throw (ErrorObj (leak_message (Some (S (length fs)))))
       else Ret (this (after (on event f) w0))).
Proof.
  intros Hp. cbv zeta.
  destruct (add_all_spec AddOn event fs (fresh_world_at d) (wf_fresh_world_at d)
              (plain_direct _ _ _ Hp))
    as (Hwf' & Hhere & _ & Hmax & _).
  split.
  { unfold getMaxListeners, gets. by rewrite Hmax. }
  destruct (adder_spec AddOn event f _ Hwf' (plain_direct _ _ _ Hp)) as (Hres & _).
  simpl in *. rewrite Hres, Hhere, foldl_at_end, Hmax. simpl.
  unfold at_end. rewrite !length_app. simpl. rewrite Nat.add_1_r.
  destruct (Z.ltb_spec d (Z.of_nat (S (length fs)))),
    (Z.gtb_spec (Z.of_nat (S (length fs))) d); try lia; done.
Qed.

(** X11: [setMaxListeners(n)] returns the emitter and changes the
    threshold only: [getMaxListeners()] then returns [n], no listener
    is removed and nothing is thrown, however long the arrays already
    are; the next adding method, for an event name that
    [Object.prototype] has nothing for, is checked against [n]. *)
Theorem setMaxListeners_changes_threshold_only (n : Z) w :
  let w' := after (setMaxListeners n) w in
  result (setMaxListeners n) w = Ret (this w')
  ∧ getMaxListeners w' = (Ret n, w')
  ∧ heap w' = heap w
  ∧ onListeners (this w') = onListeners (this w)
  ∧ onceListeners (this w') = onceListeners (this w)
  ∧ calls w' = calls w
  ∧ (wf w →
     ∀ (m : adder) event f,
       plain event →
       let l' := adder_place m f (listeners_in (adder_field m) event w) in
       result (adder_method m event f) w'
       = (if (Z.of_nat (length l') >? n)%Z
          then Throw (ErrorObj (leak_message (Some (length l'))))
          else Ret (this (after (adder_method m event f) w')))).
Proof.
  cbv zeta. do 6 (split; [done|]).
  intros Hwf m event f Hp.
  destruct (adder_spec m event f (after (setMaxListeners n) w) Hwf
              (plain_direct _ _ _ Hp))
    as (Hres & _).
  exact Hres.
Qed.

Lemma listeners_in_own fld event w :
  listeners_in fld event w ≠ [] →
  ∃ a, Js.own (field_of fld (this w)) event = Some a.
Proof.
  unfold listeners_in. destruct (Js.own (field_of fld (this w)) event) as [a|];
    [by exists a | done].
Qed.

(** X12: [emit] does not catch what a listener throws: when a
    persistent listener throws after quiet ones, [emit] ends with that
    throw, in the world the thrower left, so no later persistent
    listener and no one-shot listener is called by this [emit]. *)
Theorem emit_propagates_throw event args (pre post : list listener) f
    (t : thrown) w w1 :
  listeners_in OnListeners event w = pre ++ f :: post →
  (∀ x, x ∈ pre → quiet body x) →
  body f args (with_calls (λ c, c ++ invoked args pre ++ [(f, args)]) w)
  = (Throw t, w1) →
  emit body event args w = (Throw t, w1).
Proof.
  intros Hl Hq Hbody.
  destruct (listeners_in_own OnListeners event w) as (a & Hown);
    [rewrite Hl; by destruct pre|].
  pose proof (direct_own_Some w OnListeners event a Hown) as Hd.
  pose proof (get_own_Some w OnListeners event a Hown) as Hget. simpl in *.
  unfold emit, mbind, M_bind.
  rewrite none_registered_run by done.
  rewrite bool_decide_eq_false_2 by (rewrite Hl; by destruct pre).
  unfold read at 1. unfold gets at 1.
  rewrite (listeners_in_Some OnListeners event w a Hown) in Hl.
  simpl. rewrite Hget. simpl.
  rewrite (forEach_from_throw body a args pre post f _ 0 w t w1); try done.
  rewrite Hl, length_app. simpl. lia.
Qed.

(** X13: a one-shot listener that throws is not removed: when the
    persistent listeners are quiet and the first one-shot listener
    throws without touching the emitter, [emit] ends with that throw
    and the one-shot array is as before. *)
Theorem throwing_once_listener_stays event args f (post : list listener)
    (t : thrown) w :
  listeners_in OnListeners event w ≠ [] →
  (∀ x, x ∈ listeners_in OnListeners event w → quiet body x) →
  listeners_in OnceListeners event w = f :: post →
  (∀ w0, body f args w0 = (Throw t, w0)) →
  ∃ w', emit body event args w = (Throw t, w')
    ∧ calls w' = calls w ++ invoked args (listeners_in OnListeners event w)
                   ++ [(f, args)]
    ∧ listeners_in OnListeners event w' = listeners_in OnListeners event w
    ∧ listeners_in OnceListeners event w' = f :: post.
Proof.
  intros Hne Hq Honce Hbody.
  destruct (listeners_in_own OnListeners event w Hne) as (a & Hown1).
  destruct (listeners_in_own OnceListeners event w) as (b & Hown);
    [by rewrite Honce|].
  pose proof (direct_own_Some w OnListeners event a Hown1) as Hd1.
  pose proof (direct_own_Some w OnceListeners event b Hown) as Hd2.
  pose proof (get_own_Some w OnceListeners event b Hown) as Hget. simpl in *.
  unfold emit, mbind, M_bind.
  rewrite none_registered_run by done. rewrite bool_decide_eq_false_2 by done.
  unfold read at 1. unfold gets at 1.
  rewrite forEach_quiet by done.
  rewrite none_registered_run, listeners_in_with_calls by done.
  rewrite bool_decide_eq_false_2 by (by rewrite Honce).
  unfold read, gets. simpl. rewrite Hget.
  pose proof Honce as Hel.
  rewrite (listeners_in_Some OnceListeners event w b Hown) in Hel.
  simpl. change (elements (with_calls _ w) b) with (elements w b).
  rewrite Hel. simpl.
  change (elements (with_calls _ w) b) with (elements w b).
  rewrite Hel. simpl.
  unfold mbind, M_bind, call_once. unfold mbind, M_bind, call.
  unfold mbind, M_bind, modify. rewrite Hbody.
  eexists. split; [reflexivity|]. simpl.
  split; [by rewrite <- app_assoc|]. split; [done|]. exact Honce.
Qed.

(** X14: for an event name that [Object.prototype] has nothing for,
    the same listener can be registered twice: after two [on(e, f)]
    on an event without listener, [listeners(e)] has [f] twice,
    [emit] calls it twice, and one [off(e, f)] (the event having no
    one-shot array) leaves one entry. *)
Theorem listener_registered_twice event f args w :
  plain event →
  wf w →
  listeners_in OnListeners event w = [] →
  Js.own (onceListeners (this w)) event = None →
  quiet body f →
  let w2 := after (on event f) (after (on event f) w) in
  result (listeners event) w2 = Ret [Listener f; Listener f]
  ∧ emit body event args w2
    = (Ret true, with_calls (λ c, c ++ [(f, args); (f, args)]) w2)
  ∧ result (listeners event) (after (off event f) w2) = Ret [Listener f].
Proof.
  intros Hp Hwf Hon Hnone Hq. cbv zeta.
  assert (listeners_in OnceListeners event w = []) as Honce
    by (unfold listeners_in; simpl; by rewrite Hnone).
  pose proof (wf_after_add AddOn event f w Hwf) as Hwf1. simpl in Hwf1.
  destruct (add_all_spec AddOn event [f; f] w Hwf (plain_direct _ _ _ Hp))
    as (Hwf2 & Hhere & Hframe & _ & _).
  unfold add_all in *. simpl in *. rewrite Hon in Hhere.
  unfold at_end in Hhere. simpl in Hhere.
  set (w2 := after (on event f) (after (on event f) w)) in *.
  assert (listeners_in OnceListeners event w2 = []) as Honce2
    by (rewrite Hframe by (by left); done).
  assert (∀ x, x ∈ [f; f] → quiet body x) as Hqs.
  { intros x Hx. apply elem_of_cons in Hx as [->|Hx]; [done|].
    apply list_elem_of_singleton in Hx. by subst. }
  split; [|split].
  - unfold result. rewrite listeners_direct by (by right). simpl.
    by rewrite Hhere, Honce2.
  - rewrite emit_once_empty by (rewrite ?Hhere; done || by right).
    by rewrite Hhere.
  - unfold result. rewrite listeners_direct by (by right). simpl.
    assert (Js.own (onceListeners (this (after (on event f) w))) event = None)
      as Hnone1.
    { rewrite on_add_with, (add_with_this _ _ at_end) by (done || by right).
      simpl. by destruct (Js.own (onListeners (this w)) event). }
    rewrite !(add_off_listeners AddOn event f _ Hp Hwf1 Hnone1 eq_refl).
    rewrite decide_True by done.
    rewrite decide_False by (intros [? _]; done).
    destruct (adder_spec AddOn event f w Hwf (plain_direct _ _ _ Hp))
      as (_ & _ & Hh1 & Hf1 & _).
    simpl in Hh1, Hf1. rewrite Hh1, Hon, Hf1 by (by left).
    rewrite Honce. simpl. unfold at_end. simpl.
    by destruct (decide (f = f)).
Qed.

(** X15: with quiet listeners and a one-shot array without
    repetitions, [emit] calls the persistent listeners and then the
    one-shot listeners at the indices 0, 2, 4, ... only: each removal
    moves the next listener to the index just visited.  The
    listeners at the odd indices are not called and stay in the
    one-shot array. *)
Theorem emit_calls_every_second_once_listener event args w :
  wf w →
  listeners_in OnListeners event w ≠ [] →
  (∀ x, x ∈ listeners_in OnListeners event w → quiet body x) →
  (∀ x, x ∈ listeners_in OnceListeners event w → quiet body x) →
  NoDup (listeners_in OnceListeners event w) →
  ∃ w', emit body event args w = (Ret true, w')
    ∧ calls w' = calls w ++ invoked args (listeners_in OnListeners event w)
                   ++ invoked args (evens (listeners_in OnceListeners event w))
    ∧ listeners_in OnceListeners event w'
      = odds (listeners_in OnceListeners event w).
Proof. apply emit_alternates. Qed.

(** X16: what [off(e, f)] does for an event name that
    [Object.prototype] has nothing for.  It does not throw and
    returns the emitter; the other events, the threshold and the
    record of calls stay.  When [e] has a one-shot array that does
    not hold [f], nothing changes, also if [f] is a persistent
    listener.  Otherwise the first occurrence of [f], if any, goes
    from the one-shot array and from the persistent array. *)
Theorem off_removes_first_occurrences event f w :
  plain event →
  wf w →
  let w' := after (off event f) w in
  result (off event f) w = Ret (this w')
  ∧ this w' = this w
  ∧ calls w' = calls w
  ∧ (∀ fld event', event' ≠ event →
       listeners_in fld event' w' = listeners_in fld event' w)
  ∧ (is_Some (Js.own (onceListeners (this w)) event) →
     f ∉ listeners_in OnceListeners event w →
     w' = w)
  ∧ (Js.own (onceListeners (this w)) event = None
       ∨ f ∈ listeners_in OnceListeners event w →
     listeners_in OnceListeners event w'
     = remove_first f (listeners_in OnceListeners event w)
     ∧ listeners_in OnListeners event w'
       = remove_first f (listeners_in OnListeners event w)).
Proof.
  intros Hp Hwf. cbv zeta.
  destruct (off_frame event f w Hwf)
    as (o & w' & Hrun & Hret & _ & Hthis & Hcalls & _ & _ & Hframe).
  rewrite (Hret (plain_direct _ _ _ Hp)) in Hrun.
  unfold result, after. rewrite Hrun. simpl.
  split; [done|]. split; [done|]. split; [done|]. split; [done|]. split.
  - intros Hsome Hnotin.
    rewrite off_early_return in Hrun by done. by injection Hrun as _ <-.
  - intros Hcase.
    destruct (off_removes event f w Hwf (plain_direct _ _ _ Hp) Hcase)
      as (w2 & Hrun2 & _ & _ & _ & Honce & Hon & _).
    rewrite Hrun in Hrun2. injection Hrun2 as _ <-. done.
Qed.

(** X17: a name that [Object.prototype] has a property for is not
    an event as long as the two objects have no property of that
    name: the lookups find the value of the prototype.  The four
    adding methods, [off] and [listeners] throw a [TypeError] and
    change nothing; [listenerCount] returns twice the [length] of the
    function found; [emit] calls nothing, returns [false] when that
    length is 0 and throws a [TypeError] otherwise; and the name is
    not among [eventNames()]. *)
Theorem prototype_names_are_not_events event (i : inherited) w :
  object_prototype event = Some i →
  Js.has (onListeners (this w)) event = false →
  Js.has (onceListeners (this w)) event = false →
  (∀ (m : adder) f, adder_method m event f w = (Throw TypeError, w))
  ∧ (∀ f, off event f w = (Throw TypeError, w))
  ∧ listeners event w = (Throw TypeError, w)
  ∧ listenerCount event w = (Ret (2 * inherited_length i), w)
  ∧ (∀ args,
       emit body event args w
       = (if decide (i = Method 0) then Ret false else Throw TypeError, w))
  ∧ ∃ names, eventNames w = (Ret names, w) ∧ event ∉ names.
Proof.
  intros Hi Hon Honce.
  assert (∀ fld, Js.get (field_of fld (this w)) event = Js.Inherited i) as Hget.
  { intros fld. apply get_inherited; [|done]. by destruct fld. }
  pose proof (Hget OnListeners) as Hg1. pose proof (Hget OnceListeners) as Hg2.
  simpl in Hg1, Hg2.
  split; [|split; [|split; [|split; [|split]]]].
  - intros m f. by eapply adder_inherited.
  - intros f. by eapply off_inherited.
  - by eapply listeners_inherited.
  - rewrite listenerCount_run, Hg1, Hg2. destruct i as [n|]; simpl; [|done].
    do 2 f_equal. lia.
  - intros args. by rewrite (emit_inherited body event args w i Hg1).
  - exists (names_of w). split; [apply eventNames_run|].
    rewrite elem_of_names_of.
    rewrite !has_false_own by done. by intros [[? ?]|[? ?]].
Qed.

(** X18: [removeAllListeners(e)] for a name of [Object.prototype]
    that the two objects have no property for.  When the prototype
    holds a method under that name, the assignments create the
    property in both objects, with the value [undefined], and from
    then on the name is an event like any other: its lookups give
    [undefined], [listeners] is empty, [listenerCount] is 0, and an
    adding method makes the array and puts the listener in.  When the
    prototype holds an accessor, the assignments go to its setter and
    nothing changes. *)
Theorem removeAllListeners_of_prototype_name event (i : inherited) w :
  wf w →
  object_prototype event = Some i →
  Js.has (onListeners (this w)) event = false →
  let w' := after (removeAllListeners [event]) w in
  match i with
  | ProtoAccessor => w' = w
  | Method _ =>
      (∀ fld, Js.has (field_of fld (this w')) event = true
              ∧ Js.get (field_of fld (this w')) event = Js.Undefined)
      ∧ listeners event w' = (Ret [], w')
      ∧ listenerCount event w' = (Ret 0, w')
      ∧ ∀ (m : adder) f,
          listeners_in (adder_field m) event (after (adder_method m event f) w')
          = [f]
          ∧ result (adder_method m event f) w' ≠ Throw TypeError
  end.
Proof.
  intros Hwf Hi Hhas1. cbv zeta.
  assert (Js.has (onceListeners (this w)) event = false) as Hhas2.
  { destruct Hwf as (_ & _ & Hpair). rewrite <- Hpair; [done|]. by rewrite Hi. }
  destruct i as [n|].
  - destruct (removeAllListeners_run [event] w)
      as (w' & Hrun & Hheap & Hcalls & Hmax & Hown & Hhas & _).
    assert (after (removeAllListeners [event]) w = w') as Hafter
      by (unfold after; by rewrite Hrun).
    pose proof (removeAllListeners_wf [event] w Hwf) as Hwf'.
    rewrite Hafter in *.
    assert (∀ fld, Js.has (field_of fld (this w')) event = true) as Hh.
    { intros fld. rewrite Hhas. rewrite bool_decide_eq_true_2; [apply orb_true_r|].
      split; [apply list_elem_of_here|]. by rewrite Hi. }
    assert (∀ fld, direct fld event w') as Hd by (intros fld; left; apply Hh).
    assert (∀ fld, listeners_in fld event w' = []) as Hnil.
    { intros fld. rewrite <- Hafter, removeAllListeners_listeners.
      rewrite decide_True; [done|apply list_elem_of_here]. }
    split; [|split; [|split]].
    + intros fld. split; [apply Hh|]. rewrite get_direct by done.
      rewrite Hown, decide_True; [done|apply list_elem_of_here].
    + by rewrite listeners_direct, !Hnil.
    + by rewrite listenerCount_direct, !Hnil.
    + intros m f.
      destruct (adder_spec m event f w' Hwf' (Hd _)) as (Hres & _ & Hhere & _).
      rewrite Hnil in Hhere, Hres. split.
      * rewrite Hhere. by destruct m.
      * rewrite Hres. by destruct (_ >? _)%Z.
  - destruct w as [h [o1 o2 mx] c]. simpl in *.
    unfold after, removeAllListeners. simpl. munfold. simpl.
    unfold with_this. simpl. unfold Js.set. by rewrite Hhas1, Hhas2, Hi.
Qed.

End MoreProperties.

(** ** The further properties at work *)

Ltac decide_it := apply (bool_decide_unpack _); vm_compute; exact I.

Lemma wf_two_once : wf Scenario.two_once.
Proof.
  unfold Scenario.two_once.
  apply (wf_after_add (value:=string) AddOnce "e" "g").
  apply (wf_after_add (value:=string) AddOnce "e" "f").
  apply (wf_after_add (value:=string) AddOn "e" "h"). exact wf_start.
Qed.

Lemma wf_on_f_once_g : wf Scenario.on_f_once_g.
Proof.
  unfold Scenario.on_f_once_g.
  apply (wf_after_add (value:=string) AddOnce "e" "g").
  apply (wf_after_add (value:=string) AddOn "e" "f"). exact wf_start.
Qed.

Lemma quiet_bad_body (x : string) : x ≠ "bad" → quiet Scenario.bad_body x.
Proof.
  intros Hne args w. unfold Scenario.bad_body.
  by destruct (decide (x = "bad")).
Qed.

(** X1 at work after [on('e', 'g')]. *)
Lemma store_stays_well_formed_witness :
  wf Scenario.on_g
  ∧ wf (after (off "e" "g" : Scenario.Run _) Scenario.on_g)
  ∧ wf (after (removeAllListeners ["e"] : Scenario.Run _) Scenario.on_g)
  ∧ wf (after (Scenario.emit' "e" []) Scenario.on_g).
Proof.
  split; [exact wf_on_g|].
  destruct (store_stays_well_formed quiet_body Scenario.on_g) as [_ Hkeep].
  destruct (Hkeep wf_on_g) as (_ & Hoff & Hrem & _ & Hemit).
  split; [apply Hoff|]. split; [apply Hrem|].
  apply Hemit; intros x _; apply quiet_quiet_body.
Defined.

(** X2 at work: events ['e'] and ['a'] after [on('e', 'g')]. *)
Lemma other_events_untouched_witness :
  wf Scenario.on_g
  ∧ "a" ≠ "e"
  ∧ same_listeners "a" Scenario.on_g
      (after (once "e" "f" : Scenario.Run _) Scenario.on_g)
  ∧ same_listeners "a" Scenario.on_g
      (after (Scenario.emit' "e" []) Scenario.on_g).
Proof.
  split; [exact wf_on_g|]. split; [discriminate|].
  assert ("a" ≠ "e") as Hne by discriminate.
  destruct (other_events_untouched quiet_body "e" "a" Scenario.on_g wf_on_g Hne)
    as (Hadd & _ & _ & Hemit).
  split; [apply (Hadd AddOnce)|].
  apply Hemit; intros x _; apply quiet_quiet_body.
Defined.

(** X3 at work on a new emitter. *)
Lemma on_then_emit_witness :
  plain "e"
  ∧ wf Scenario.start
  ∧ listeners_in OnListeners "e" Scenario.start = []
  ∧ Scenario.emit' "e" ["x"] Scenario.on_f
    = (Ret true, with_calls (λ c, c ++ [("f", ["x"])]) Scenario.on_f).
Proof.
  split; [exact plain_e|]. split; [exact wf_start|]. split; [reflexivity|].
  destruct (on_then_emit quiet_body "e" "f" ["x"] Scenario.start plain_e wf_start
              eq_refl eq_refl (quiet_quiet_body "f")) as (_ & Hemit & _).
  exact Hemit.
Defined.

(** X4 at work on a new emitter. *)
Lemma add_then_off_restores_witness :
  plain "e"
  ∧ wf Scenario.start
  ∧ Js.own (onceListeners (this Scenario.start)) "e" = None
  ∧ ("f" ∉ listeners_in OnListeners "e" Scenario.start)
  ∧ listeners_in OnListeners "e"
      (after (removeListener "e" "f" : Scenario.Run _)
         (after (addListener "e" "f" : Scenario.Run _) Scenario.start))
    = [].
Proof.
  split; [exact plain_e|]. split; [exact wf_start|]. split; [reflexivity|].
  assert ("f" ∉ listeners_in OnListeners "e" Scenario.start) as Hnotin
    by apply not_elem_of_nil.
  split; [exact Hnotin|].
  destruct (add_then_off_restores quiet_body "e" "f" Scenario.start plain_e
              wf_start eq_refl)
    as (Hon & _).
  exact (Hon Hnotin OnListeners "e").
Defined.

(** X5 at work after [on('e', 'f')] and [once('e', 'g')]. *)
Lemma listenerCount_is_length_of_listeners_witness :
  plain "e"
  ∧ listeners "e" Scenario.on_f_once_g
    = (Ret (Listener <$> (listeners_in OnListeners "e" Scenario.on_f_once_g
                          ++ listeners_in OnceListeners "e" Scenario.on_f_once_g)),
       Scenario.on_f_once_g).
Proof.
  split; [exact plain_e|].
  destruct (listenerCount_is_length_of_listeners "e" Scenario.on_f_once_g plain_e)
    as (Hrun & _).
  exact Hrun.
Defined.

(** X6 at work: the event ['a'] after [on('e', 'g')]. *)
Lemma unknown_event_witness :
  plain "a"
  ∧ Js.own (onListeners (this Scenario.on_g)) "a" = None
  ∧ Js.own (onceListeners (this Scenario.on_g)) "a" = None
  ∧ listenerCount "a" Scenario.on_g = (Ret 0, Scenario.on_g)
  ∧ off "a" "g" Scenario.on_g = (Ret (this Scenario.on_g), Scenario.on_g)
  ∧ Scenario.emit' "a" [] Scenario.on_g = (Ret false, Scenario.on_g).
Proof.
  assert (plain "a") as Hp by reflexivity.
  split; [exact Hp|]. split; [reflexivity|]. split; [reflexivity|].
  destruct (unknown_event quiet_body "a" Scenario.on_g Hp eq_refl eq_refl)
    as (_ & Hcount & _ & Hoff & Hemit).
  split; [exact Hcount|]. split; [apply Hoff|apply Hemit].
Defined.

(** X7 at work: [removeAllListeners('toString', 'e')] after
    [on('e', 'g')]. *)
Lemma removeAllListeners_given_events_witness :
  "toString" ∈ ["toString"; "e"]
  ∧ object_prototype "toString" ≠ Some ProtoAccessor
  ∧ listeners "toString"
      (after (removeAllListeners ["toString"; "e"] : Scenario.Run _) Scenario.on_g)
    = (Ret [],
       after (removeAllListeners ["toString"; "e"] : Scenario.Run _) Scenario.on_g)
  ∧ Scenario.emit' "toString" []
      (after (removeAllListeners ["toString"; "e"] : Scenario.Run _) Scenario.on_g)
    = (Ret false,
       after (removeAllListeners ["toString"; "e"] : Scenario.Run _) Scenario.on_g).
Proof.
  assert ("toString" ∈ ["toString"; "e"]) as Hin by apply list_elem_of_here.
  assert (object_prototype "toString" ≠ Some ProtoAccessor) as Hacc
    by (vm_compute; discriminate).
  split; [exact Hin|]. split; [exact Hacc|].
  destruct (removeAllListeners_given_events quiet_body ["toString"; "e"]
              Scenario.on_g)
    as (_ & _ & _ & Hgiven & _).
  destruct (Hgiven "toString" Hin Hacc) as (Hlist & _ & Hemit).
  split; [exact Hlist|apply Hemit].
Defined.

(** X8 at work: ['e'] is listed after [on('e', 'f')] and
    [off('e', 'f')] on a new emitter. *)
Lemma eventNames_lists_events_with_an_array_witness :
  wf Scenario.start
  ∧ plain "e"
  ∧ listeners_in OnListeners "e" Scenario.start = []
  ∧ Js.own (onceListeners (this Scenario.start)) "e" = None
  ∧ result (listenerCount "e")
      (after (off "e" "f" : Scenario.Run _)
         (after (on "e" "f" : Scenario.Run _) Scenario.start))
    = Ret 0
  ∧ ∃ names,
      result eventNames
        (after (off "e" "f" : Scenario.Run _)
           (after (on "e" "f" : Scenario.Run _) Scenario.start))
      = Ret names
      ∧ "e" ∈ names.
Proof.
  split; [exact wf_start|]. split; [exact plain_e|].
  split; [reflexivity|]. split; [reflexivity|].
  destruct (eventNames_lists_events_with_an_array quiet_body Scenario.start)
    as (_ & _ & _ & _ & Hlisted).
  exact (Hlisted wf_start "e" "f" plain_e eq_refl eq_refl).
Defined.

(** X9 at work: [on('e', 'f')], [on('e', 'g')] on a new emitter. *)
Lemma adding_keeps_call_order_witness :
  plain "e"
  ∧ wf Scenario.start
  ∧ ["f"; "g"] ≠ []
  ∧ Scenario.emit' "e" ["x"] (add_all AddOn "e" ["f"; "g"] Scenario.start)
    = (Ret true,
       with_calls (λ c, c ++ invoked ["x"] ["f"; "g"])
         (add_all AddOn "e" ["f"; "g"] Scenario.start)).
Proof.
  split; [exact plain_e|]. split; [exact wf_start|]. split; [discriminate|].
  destruct (adding_keeps_call_order quiet_body AddOn "e" ["f"; "g"]
              Scenario.start plain_e wf_start) as (_ & _ & Hemit).
  apply Hemit; try reflexivity; try discriminate.
  intros x _. apply quiet_quiet_body.
Defined.

(** X10 at work: the second listener on an emitter made while the
    static holds 1. *)
Lemma listener_over_threshold_throws_witness :
  plain "e"
  ∧ result (on "e" "g" : Scenario.Run _)
      (add_all AddOn "e" ["f"] (fresh_world_at 1))
    = Throw (ErrorObj (leak_message (Some 2))).
Proof.
  split; [exact plain_e|].
  destruct (listener_over_threshold_throws (listener:=string) (value:=string)
              1 "e" ["f"] "g" plain_e) as (_ & Hres).
  exact Hres.
Defined.

(** X11 at work: [setMaxListeners(0)] on a new emitter, then
    [on('e', 'f')]. *)
Lemma setMaxListeners_changes_threshold_only_witness :
  wf Scenario.start
  ∧ plain "e"
  ∧ result (on "e" "f" : Scenario.Run _)
      (after (setMaxListeners 0 : Scenario.Run _) Scenario.start)
    = Throw (ErrorObj (leak_message (Some 1))).
Proof.
  split; [exact wf_start|]. split; [exact plain_e|].
  destruct (setMaxListeners_changes_threshold_only 0 Scenario.start)
    as (_ & _ & _ & _ & _ & _ & Hnext).
  exact (Hnext wf_start AddOn "e" "f" plain_e).
Defined.

(** X12 at work: ['bad'] throws between ['g'] and ['h']. *)
Lemma emit_propagates_throw_witness :
  listeners_in OnListeners "e" Scenario.bad_between = ["g"] ++ "bad" :: ["h"]
  ∧ emit Scenario.bad_body "e" ["x"] Scenario.bad_between
    = (Throw (ListenerThrew "boom"),
       with_calls (λ c, c ++ [("g", ["x"]); ("bad", ["x"])]) Scenario.bad_between).
Proof.
  split; [reflexivity|].
  apply (emit_propagates_throw Scenario.bad_body "e" ["x"] ["g"] ["h"] "bad").
  - reflexivity.
  - intros x Hx. apply list_elem_of_singleton in Hx. subst.
    apply quiet_bad_body. discriminate.
  - reflexivity.
Defined.

(** X13 at work: the one-shot listener ['bad'] throws. *)
Lemma throwing_once_listener_stays_witness :
  listeners_in OnListeners "e" Scenario.bad_once ≠ []
  ∧ listeners_in OnceListeners "e" Scenario.bad_once = ["bad"]
  ∧ ∃ w', emit Scenario.bad_body "e" ["x"] Scenario.bad_once
          = (Throw (ListenerThrew "boom"), w')
      ∧ listeners_in OnceListeners "e" w' = ["bad"].
Proof.
  assert (listeners_in OnListeners "e" Scenario.bad_once ≠ []) as Hne
    by (vm_compute; discriminate).
  split; [exact Hne|]. split; [reflexivity|].
  destruct (throwing_once_listener_stays Scenario.bad_body "e" ["x"] "bad" []
              (ListenerThrew "boom") Scenario.bad_once Hne)
    as (w' & Hrun & _ & _ & Honce).
  - intros x Hx. apply list_elem_of_singleton in Hx. subst.
    apply quiet_bad_body. discriminate.
  - reflexivity.
  - intros w0. reflexivity.
  - exists w'. split; [exact Hrun|exact Honce].
Defined.

(** X14 at work on a new emitter. *)
Lemma listener_registered_twice_witness :
  plain "e"
  ∧ wf Scenario.start
  ∧ result (listeners "e")
      (after (on "e" "f" : Scenario.Run _)
         (after (on "e" "f" : Scenario.Run _) Scenario.start))
    = Ret [Listener "f"; Listener "f"]
  ∧ result (listeners "e")
      (after (off "e" "f" : Scenario.Run _)
         (after (on "e" "f" : Scenario.Run _)
            (after (on "e" "f" : Scenario.Run _) Scenario.start)))
    = Ret [Listener "f"].
Proof.
  split; [exact plain_e|]. split; [exact wf_start|].
  destruct (listener_registered_twice quiet_body "e" "f" [] Scenario.start
              plain_e wf_start eq_refl eq_refl (quiet_quiet_body "f"))
    as (Htwice & _ & Hone).
  split; [exact Htwice|exact Hone].
Defined.

(** X15 at work: the one-shot array [['f'; 'g']]. *)
Lemma emit_calls_every_second_once_listener_witness :
  wf Scenario.two_once
  ∧ NoDup (listeners_in OnceListeners "e" Scenario.two_once)
  ∧ ∃ w', Scenario.emit' "e" ["x"] Scenario.two_once = (Ret true, w')
      ∧ listeners_in OnceListeners "e" w'
        = odds (listeners_in OnceListeners "e" Scenario.two_once).
Proof.
  assert (NoDup (listeners_in OnceListeners "e" Scenario.two_once)) as Hnd
    by decide_it.
  split; [exact wf_two_once|]. split; [exact Hnd|].
  destruct (emit_calls_every_second_once_listener quiet_body "e" ["x"]
              Scenario.two_once wf_two_once) as (w' & Hrun & _ & Hodds).
  - vm_compute. discriminate.
  - intros x _. apply quiet_quiet_body.
  - intros x _. apply quiet_quiet_body.
  - exact Hnd.
  - exists w'. split; [exact Hrun|exact Hodds].
Defined.

(** X16 at work: [off('e', 'f')] after [on('e', 'f')] and
    [once('e', 'g')]. *)
Lemma off_removes_first_occurrences_witness :
  plain "e"
  ∧ wf Scenario.on_f_once_g
  ∧ is_Some (Js.own (onceListeners (this Scenario.on_f_once_g)) "e")
  ∧ ("f" ∉ listeners_in OnceListeners "e" Scenario.on_f_once_g)
  ∧ after (off "e" "f" : Scenario.Run _) Scenario.on_f_once_g
    = Scenario.on_f_once_g.
Proof.
  assert (is_Some (Js.own (onceListeners (this Scenario.on_f_once_g)) "e"))
    as Hsome by (by eexists).
  assert ("f" ∉ listeners_in OnceListeners "e" Scenario.on_f_once_g) as Hnotin
    by decide_it.
  split; [exact plain_e|].
  split; [exact wf_on_f_once_g|]. split; [exact Hsome|]. split; [exact Hnotin|].
  destruct (off_removes_first_occurrences "e" "f" Scenario.on_f_once_g
              plain_e wf_on_f_once_g) as (_ & _ & _ & _ & Hearly & _).
  exact (Hearly Hsome Hnotin).
Defined.

(** X17 at work: the name ['constructor'] on a new emitter. *)
Lemma prototype_names_are_not_events_witness :
  object_prototype "constructor" = Some (Method 1)
  ∧ Js.has (onListeners (this Scenario.start)) "constructor" = false
  ∧ Js.has (onceListeners (this Scenario.start)) "constructor" = false
  ∧ (on "constructor" "f" : Scenario.Run _) Scenario.start
    = (Throw TypeError, Scenario.start)
  ∧ listenerCount "constructor" Scenario.start = (Ret 2, Scenario.start)
  ∧ Scenario.emit' "constructor" [] Scenario.start
    = (Throw TypeError, Scenario.start).
Proof.
  split; [reflexivity|]. split; [reflexivity|]. split; [reflexivity|].
  destruct (prototype_names_are_not_events quiet_body "constructor" (Method 1)
              Scenario.start eq_refl eq_refl eq_refl)
    as (Hadd & _ & _ & Hcount & Hemit & _).
  split; [exact (Hadd AddOn "f")|]. split; [exact Hcount|exact (Hemit [])].
Defined.

(** X18 at work: [removeAllListeners('__proto__')] and
    [removeAllListeners('toString')] on a new emitter. *)
Lemma removeAllListeners_of_prototype_name_witness :
  wf Scenario.start
  ∧ object_prototype "__proto__" = Some ProtoAccessor
  ∧ Js.has (onListeners (this Scenario.start)) "__proto__" = false
  ∧ after (removeAllListeners ["__proto__"] : Scenario.Run _) Scenario.start
    = Scenario.start.
Proof.
  split; [exact wf_start|]. split; [reflexivity|]. split; [reflexivity|].
  exact (removeAllListeners_of_prototype_name "__proto__" ProtoAccessor
           Scenario.start wf_start eq_refl eq_refl).
Defined.

